(** * A shallow embedding of [hypergraph.py]

    The module defines [Edge], [EdgeData], [HyperGraph] and the two views
    [NeighborMap] and [NeighborAtlas].  Python dictionaries and sets become
    stdpp finite maps; the [EdgeData] objects, which the code shares between
    an [Edge] and the graph's [edge_data] dictionary, live in an explicit
    heap so that aliasing is visible.  Every method is a function from the
    state before the call to an [outcome] and the state at the moment the
    call returned or raised. *)

From stdpp Require Import gmap strings list fin_maps.

#[local] Set Warnings "-clear-no-such-hyp".

(** ** Values, keyword arguments, exceptions *)

(** Hashable Python values used as edge keys and attribute values. *)
Inductive pyval := VInt (z : Z) | VStr (s : string).

Global Instance pyval_eq_dec : EqDecision pyval.
Proof. solve_decision. Defined.

Global Instance pyval_countable : Countable pyval.
Proof.
  refine (inj_countable'
            (λ v, match v with VInt z => inl z | VStr s => inr s end)
            (λ x, match x with inl z => VInt z | inr s => VStr s end) _).
  by intros [].
Defined.

(** A [**kwds] dictionary. *)
Abbreviation kwargs := (gmap string pyval) (only parsing).

(** The [nbunch] handed to [Edge]: a [set]/[frozenset] (an instance of the
    [Set] ABC) or a [tuple].  Nodes are integers. *)
Inductive nbunch := NSet (s : gset Z) | NTuple (l : list Z).

Global Instance nbunch_eq_dec : EqDecision nbunch.
Proof. solve_decision. Defined.

Global Instance nbunch_countable : Countable nbunch.
Proof.
  refine (inj_countable'
            (λ v, match v with NSet s => inl s | NTuple l => inr l end)
            (λ x, match x with inl s => NSet s | inr l => NTuple l end) _).
  by intros [].
Defined.

(** What [Edge.__hash__] hashes and [Edge.__eq__] compares: the pair
    [(nodes, edgekey)].  Dictionaries and sets of edges are keyed by it. *)
Abbreviation edge_id := (nbunch * option pyval)%type (only parsing).

(** The argument carried by a [KeyError]. *)
Inductive pykey := KNode (n : Z) | KEdge (k : edge_id) | KAttr (a : string).

Inductive exn :=
| KeyError (k : pykey)
| AttributeError (name : string)
| TypeError (name : string).

Inductive outcome (A : Type) := Returned (v : A) | Raised (x : exn).
Arguments Returned {A} v.
Arguments Raised {A} x.

Global Instance pykey_eq_dec : EqDecision pykey.
Proof. solve_decision. Defined.
Global Instance exn_eq_dec : EqDecision exn.
Proof. solve_decision. Defined.
Global Instance outcome_eq_dec `{EqDecision A} : EqDecision (outcome A).
Proof. solve_decision. Defined.

Definition returned {A} (o : outcome A) : bool :=
  match o with Returned _ => true | Raised _ => false end.

(** [for x in l: body]: the loop stops at the first iteration that raises,
    in the state that iteration left behind. *)
Fixpoint for_each {A S : Type} (body : A → S → outcome unit * S)
    (l : list A) (s : S) : outcome unit * S :=
  match l with
  | [] => (Returned (), s)
  | x :: l' =>
      match body x s with
      | (Returned _, s') => for_each body l' s'
      | (Raised ex, s') => (Raised ex, s')
      end
  end.

(** A call [f(..., **m)]: Python raises [TypeError] when a key of [m] names
    one of the parameters of [f] that the call already binds. *)
Definition star_call_ok (params : list string) (m : kwargs) : bool :=
  forallb (λ p, bool_decide (m !! p = None)) params.

(** ** [EdgeData] *)

Record EdgeData := mkEdgeData { _data : option (gmap string pyval) }.

Global Instance EdgeData_eq_dec : EqDecision EdgeData.
Proof. solve_decision. Defined.

Definition EdgeData_init (kwds : kwargs) : EdgeData :=
  if decide (size kwds = 0) then mkEdgeData None else mkEdgeData (Some kwds).

Definition EdgeData_getitem (key : string) (d : EdgeData) : outcome pyval :=
  match _data d with
  | None => Raised (KeyError (KAttr key))
  | Some m =>
      match m !! key with
      | Some v => Returned v
      | None => Raised (KeyError (KAttr key))
      end
  end.

Definition EdgeData_setitem (key : string) (value : pyval) (d : EdgeData)
    : EdgeData :=
  match _data d with
  | None => mkEdgeData (Some (<[key:=value]> ∅))
  | Some m => mkEdgeData (Some (<[key:=value]> m))
  end.

Definition EdgeData_len (d : EdgeData) : nat :=
  match _data d with None => 0 | Some m => size m end.

(** The mapping read through [keys()] and [__getitem__], as [**edata] and
    [update] do. *)
Definition EdgeData_items (d : EdgeData) : gmap string pyval :=
  match _data d with None => ∅ | Some m => m end.

(** [MutableMapping.update]: [self[key] = other[key]] for each key. *)
Definition EdgeData_update (other : kwargs) (d : EdgeData) : EdgeData :=
  map_fold EdgeData_setitem d other.

(** The heap of [EdgeData] objects. *)
Abbreviation heap := (gmap positive EdgeData) (only parsing).

Definition heap_alloc (d : EdgeData) (h : heap) : positive * heap :=
  let l := fresh (dom h) in (l, <[l:=d]> h).

(** [obj.update(kwds)] for the object at [l]. *)
Definition heap_update (l : positive) (kwds : kwargs) (h : heap) : heap :=
  alter (EdgeData_update kwds) l h.

(** [**obj] for the object at [l]. *)
Definition heap_items (l : positive) (h : heap) : gmap string pyval :=
  match h !! l with Some d => EdgeData_items d | None => ∅ end.

(** ** [Edge] *)

Record Edge := mkEdge {
  _nodes : nbunch;
  _edgekey : option pyval;
  data : positive
}.

Global Instance Edge_eq_dec : EqDecision Edge.
Proof. solve_decision. Defined.

(** [Edge(nbunch, edgekey, **kwds)]. *)
Definition Edge_init (nb : nbunch) (edgekey : option pyval) (kwds : kwargs)
    (h : heap) : Edge * heap :=
  let '(l, h') := heap_alloc (EdgeData_init kwds) h in
  (mkEdge nb edgekey l, h').

Definition nbunch_iter (nb : nbunch) : list Z :=
  match nb with NSet s => elements s | NTuple l => l end.

Definition Edge_iter (e : Edge) : list Z := nbunch_iter (_nodes e).

Definition Edge_contains (node : Z) (e : Edge) : bool :=
  match _nodes e with
  | NSet s => bool_decide (node ∈ s)
  | NTuple l => bool_decide (node ∈ l)
  end.

Definition Edge_len (e : Edge) : nat :=
  match _nodes e with NSet s => size s | NTuple l => length l end.

(** [__hash__] hashes the pair below ([frozenset(self._nodes)] is the same
    [NSet]). *)
Definition Edge_hash_key (e : Edge) : edge_id := (_nodes e, _edgekey e).

Definition Edge_eq (e other : Edge) : bool :=
  bool_decide (_nodes e = _nodes other)
  && bool_decide (_edgekey e = _edgekey other).

(** Members of an edge, read off its identity. *)
Definition members (k : edge_id) : list Z := nbunch_iter k.1.

(** ** Sets and dictionaries of [Edge] objects

    A set of edges maps the identity of each element to the [data] slot of
    the object that is stored; a dictionary keyed by edges stores that slot
    next to the value. *)

Abbreviation edge_set := (gmap (nbunch * option pyval) positive) (only parsing).

(** [s.add(e)]: an equal element already present is kept. *)
Definition set_add (e : Edge) (s : edge_set) : edge_set :=
  match s !! Edge_hash_key e with
  | Some _ => s
  | None => <[Edge_hash_key e := data e]> s
  end.

(** [d[e] = v]: an equal key already present is kept, its value replaced. *)
Definition dict_setitem (e : Edge) (v : positive)
    (d : gmap (nbunch * option pyval) (positive * positive))
    : gmap (nbunch * option pyval) (positive * positive) :=
  match d !! Edge_hash_key e with
  | Some (kd, _) => <[Edge_hash_key e := (kd, v)]> d
  | None => <[Edge_hash_key e := (data e, v)]> d
  end.

(** The elements of a set of edges, as objects. *)
Definition set_elements (s : edge_set) : list Edge :=
  (λ p : edge_id * positive, mkEdge p.1.1 p.1.2 p.2) <$> map_to_list s.

(** ** [HyperGraph] *)

Record HyperGraph := mkHyperGraph {
  node_data : gmap Z (gmap string pyval);
  node_incidence : gmap Z (gmap (nbunch * option pyval) positive);
  edge_data : gmap (nbunch * option pyval) (positive * positive)
}.

Global Instance HyperGraph_eq_dec : EqDecision HyperGraph.
Proof. solve_decision. Defined.

Definition HyperGraph_init : HyperGraph := mkHyperGraph ∅ ∅ ∅.

(** An argument that is either a raw node collection or an [Edge]. *)
Inductive edge_arg := Raw (nb : nbunch) | Obj (e : Edge).

Definition add_node (node : Z) (kwds : kwargs) (G : HyperGraph)
    : outcome bool * HyperGraph :=
  match node_data G !! node with
  | Some d =>
      (Returned false,
       mkHyperGraph (<[node := kwds ∪ d]> (node_data G))
                    (node_incidence G) (edge_data G))
  | None =>
      (Returned true,
       mkHyperGraph (<[node := kwds]> (node_data G))
                    (<[node := ∅]> (node_incidence G)) (edge_data G))
  end.

(** The body of [for n in e] in [add_edge]. *)
Definition add_edge_body (e : Edge) (n : Z) (G : HyperGraph)
    : outcome unit * HyperGraph :=
  match node_data G !! n with
  | None =>
      (Returned (),
       mkHyperGraph (<[n := ∅]> (node_data G))
                    (<[n := {[Edge_hash_key e := data e]}]> (node_incidence G))
                    (edge_data G))
  | Some _ =>
      match node_incidence G !! n with
      | Some s =>
          (Returned (),
           mkHyperGraph (node_data G)
                        (<[n := set_add e s]> (node_incidence G))
                        (edge_data G))
      | None => (Raised (KeyError (KNode n)), G)
      end
  end.

(** [add_edge] returns [False] or the new edge. *)
Inductive add_edge_result := RFalse | REdge (e : Edge).

Global Instance add_edge_result_eq_dec : EqDecision add_edge_result.
Proof. solve_decision. Defined.

(** The first [if] of [add_edge]: the edge object, the keyword arguments that
    remain and the heap. *)
Definition add_edge_resolve (nbunch : edge_arg) (kwds : kwargs) (h : heap)
    : Edge * gmap string pyval * heap :=
  match nbunch with
  | Obj e => (e, kwds, heap_update (data e) kwds h)
  | Raw nb =>
      let edgekey := kwds !! "edgekey" in
      let kwds' := delete "edgekey" kwds in
      let '(e, h') := Edge_init nb edgekey kwds' h in
      (e, kwds', h')
  end.

Definition add_edge (nbunch : edge_arg) (kwds : kwargs) (G : HyperGraph)
    (h : heap) : outcome add_edge_result * HyperGraph * heap :=
  let '(e, kwds', h1) := add_edge_resolve nbunch kwds h in
  match edge_data G !! Edge_hash_key e with
  | Some (_, d) => (Returned RFalse, G, heap_update d kwds' h1)
  | None =>
      let G1 := mkHyperGraph (node_data G) (node_incidence G)
                  (<[Edge_hash_key e := (data e, data e)]> (edge_data G)) in
      match for_each (add_edge_body e) (Edge_iter e) G1 with
      | (Returned _, G2) => (Returned (REdge e), G2, h1)
      | (Raised ex, G2) => (Raised ex, G2, h1)
      end
  end.

(** The identity a lookup resolves to: that of the edge passed in, or of the
    transient [Edge(nbunch, None)], whose fresh [EdgeData] nothing keeps. *)
Definition resolve (nbunch : edge_arg) : edge_id :=
  match nbunch with
  | Obj e => Edge_hash_key e
  | Raw nb => (nb, None)
  end.

(** [self.node_incidence[n].remove(e)]. *)
Definition incidence_remove (k : edge_id) (n : Z) (G : HyperGraph)
    : outcome unit * HyperGraph :=
  match node_incidence G !! n with
  | None => (Raised (KeyError (KNode n)), G)
  | Some s =>
      match s !! k with
      | None => (Raised (KeyError (KEdge k)), G)
      | Some _ =>
          (Returned (),
           mkHyperGraph (node_data G)
                        (<[n := delete k s]> (node_incidence G))
                        (edge_data G))
      end
  end.

Definition remove_edge (nbunch : edge_arg) (G : HyperGraph)
    : outcome unit * HyperGraph :=
  let k := resolve nbunch in
  match edge_data G !! k with
  | None => (Raised (KeyError (KEdge k)), G)
  | Some _ =>
      for_each (incidence_remove k) (members k)
        (mkHyperGraph (node_data G) (node_incidence G)
                      (delete k (edge_data G)))
  end.

(** [self.node_incidence[nbr].add(newe)]. *)
Definition incidence_add (newe : Edge) (nbr : Z) (G : HyperGraph)
    : outcome unit * HyperGraph :=
  match node_incidence G !! nbr with
  | None => (Raised (KeyError (KNode nbr)), G)
  | Some s =>
      (Returned (),
       mkHyperGraph (node_data G)
                    (<[nbr := set_add newe s]> (node_incidence G))
                    (edge_data G))
  end.

(** [set(n for n in e if n != node)] or [tuple(...)], by the kind of
    [e.nodes]. *)
Definition nbunch_without (node : Z) (nb : nbunch) : nbunch :=
  match nb with
  | NSet s => NSet (list_to_set (filter (λ n, n ≠ node) (elements s)))
  | NTuple l => NTuple (filter (λ n, n ≠ node) l)
  end.

(** One iteration of [for e in list(self.node_incidence[node])]. *)
Definition remove_node_body (node : Z) (e : Edge) (st : HyperGraph * heap)
    : outcome unit * (HyperGraph * heap) :=
  let '(G, h) := st in
  match edge_data G !! Edge_hash_key e with
  | None => (Raised (KeyError (KEdge (Edge_hash_key e))), (G, h))
  | Some _ =>
      let G1 := mkHyperGraph (node_data G) (node_incidence G)
                  (delete (Edge_hash_key e) (edge_data G)) in
      let kwds := heap_items (data e) h in
      if star_call_ok ["self"; "nbunch"; "edgekey"] kwds then
        let '(newe, h1) :=
          Edge_init (nbunch_without node (_nodes e)) (_edgekey e) kwds h in
        let '(o, G3) :=
          if decide (1 < Edge_len newe) then
            for_each (incidence_add newe) (Edge_iter newe)
              (mkHyperGraph (node_data G1) (node_incidence G1)
                            (dict_setitem newe (data newe) (edge_data G1)))
          else (Returned (), G1) in
        match o with
        | Raised ex => (Raised ex, (G3, h1))
        | Returned _ =>
            let '(o', G4) :=
              for_each (incidence_remove (Edge_hash_key e)) (Edge_iter newe) G3
            in (o', (G4, h1))
        end
      else (Raised (TypeError "edgekey"), (G1, h))
  end.

Definition remove_node (node : Z) (G : HyperGraph) (h : heap)
    : outcome unit * (HyperGraph * heap) :=
  match node_data G !! node with
  | None => (Raised (KeyError (KNode node)), (G, h))
  | Some _ =>
      let G1 := mkHyperGraph (delete node (node_data G)) (node_incidence G)
                  (edge_data G) in
      match node_incidence G1 !! node with
      | None => (Raised (KeyError (KNode node)), (G1, h))
      | Some s =>
          match for_each (remove_node_body node) (set_elements s) (G1, h) with
          | (Raised ex, st) => (Raised ex, st)
          | (Returned _, (G2, h2)) =>
              (Returned (),
               (mkHyperGraph (node_data G2) (delete node (node_incidence G2))
                             (edge_data G2), h2))
          end
      end
  end.

(** *** Reporting methods *)

Definition has_edge (nbunch : edge_arg) (G : HyperGraph) : bool :=
  bool_decide (is_Some (edge_data G !! resolve nbunch)).

Definition order (G : HyperGraph) : nat := size (node_data G).
Definition size_ (G : HyperGraph) : nat := size (edge_data G).

(** [nodes()]: the keys of [node_data]. *)
Definition nodes (G : HyperGraph) : gset Z := dom (node_data G).

(** The attribute mapping [edges(data=True)] pairs with the edge of identity
    [k], read now. *)
Definition edge_attributes (G : HyperGraph) (h : heap) (k : edge_id)
    : option (gmap string pyval) :=
  (λ p : positive * positive, heap_items p.2 h) <$> edge_data G !! k.

(** What one incident edge contributes to [neighbors(node)]. *)
Definition neighbors_of_edge (node : Z) (e : Edge) : list Z :=
  if decide (Edge_len e = 1) then [node]
  else filter (λ n, n ≠ node) (Edge_iter e).

(** The body of the generator [neighbors], run to exhaustion. *)
Definition neighbors_body (node : Z) (G : HyperGraph) : outcome (list Z) :=
  match node_incidence G !! node with
  | None => Raised (KeyError (KNode node))
  | Some s => Returned (set_elements s ≫= neighbors_of_edge node)
  end.

(** A generator object made by calling [neighbors]: the body has not run; it
    holds [self] by reference and reads the graph when it is consumed. *)
Record generator := mkGenerator { gen_node : Z }.

(** Calling a generator function runs none of its body. *)
Definition neighbors (node : Z) (G : HyperGraph) : outcome generator :=
  Returned (mkGenerator node).

(** [list(g)]. *)
Definition generator_list (g : generator) (G : HyperGraph)
    : outcome (list Z) :=
  neighbors_body (gen_node g) G.

(** *** [clear] and [copy] *)

(** The attributes of a [HyperGraph] instance are the three [__init__]
    assigns; the class has no [__slots__], no [__getattr__] and no class
    attribute besides its methods. *)
Definition instance_attributes : list string :=
  ["node_data"; "node_incidence"; "edge_data"].

Definition class_attributes : list string :=
  ["add_node"; "add_edge"; "remove_edge"; "remove_node"; "edges"; "nodes";
   "has_edge"; "adjacency"; "neighbors"; "clear"; "copy"; "order"; "size"].

Definition has_attribute (name : string) : bool :=
  bool_decide (name ∈ instance_attributes ++ class_attributes).

(** The three dictionaries are emptied in the order of the source, then
    [self.graph] is looked up. *)
Definition clear (G : HyperGraph) : outcome unit * HyperGraph :=
  let G1 := mkHyperGraph ∅ (node_incidence G) (edge_data G) in
  let G2 := mkHyperGraph (node_data G1) (node_incidence G1) ∅ in
  let G3 := mkHyperGraph (node_data G2) ∅ (edge_data G2) in
  if has_attribute "graph" then (Returned (), G3)
  else (Raised (AttributeError "graph"), G3).

(** [G.add_node(n, **ndata)]. *)
Definition copy_node (p : Z * gmap string pyval) (G' : HyperGraph)
    : outcome unit * HyperGraph :=
  if star_call_ok ["self"; "node"] p.2 then
    match add_node p.1 p.2 G' with
    | (Returned _, G'') => (Returned (), G'')
    | (Raised ex, G'') => (Raised ex, G'')
    end
  else (Raised (TypeError "node"), G').

(** [G.add_edge(e, **edata)], for the key object [e] and the value [edata]
    of one item of [self.edge_data]. *)
Definition copy_edge (p : edge_id * (positive * positive))
    (st : HyperGraph * heap) : outcome unit * (HyperGraph * heap) :=
  let '(G', h) := st in
  let e := mkEdge p.1.1 p.1.2 p.2.1 in
  let kwds := heap_items p.2.2 h in
  if star_call_ok ["self"; "nbunch"] kwds then
    match add_edge (Obj e) kwds G' h with
    | (Returned _, G'', h') => (Returned (), (G'', h'))
    | (Raised ex, G'', h') => (Raised ex, (G'', h'))
    end
  else (Raised (TypeError "nbunch"), (G', h)).

Definition copy (G : HyperGraph) (h : heap)
    : outcome HyperGraph * heap :=
  match for_each copy_node (map_to_list (node_data G)) HyperGraph_init with
  | (Raised ex, _) => (Raised ex, h)
  | (Returned _, G1) =>
      match for_each copy_edge (map_to_list (edge_data G)) (G1, h) with
      | (Raised ex, (_, h')) => (Raised ex, h')
      | (Returned _, (G2, h')) => (Returned G2, h')
      end
  end.

(** ** [NeighborMap] and [NeighborAtlas] *)

(** A view holds the graph by reference and a node. *)
Record NeighborMap := mkNeighborMap { _node : Z }.

Definition HyperGraph_getitem (node : Z) (G : HyperGraph) : NeighborMap :=
  mkNeighborMap node.

(** [list(view)]: the generator [__iter__] run to exhaustion. *)
Definition NeighborMap_iter (v : NeighborMap) (G : HyperGraph)
    : outcome (list Z) :=
  match node_incidence G !! _node v with
  | None => Raised (KeyError (KNode (_node v)))
  | Some s => Returned (set_elements s ≫= neighbors_of_edge (_node v))
  end.

Definition NeighborMap_len (v : NeighborMap) (G : HyperGraph)
    : outcome nat :=
  match node_incidence G !! _node v with
  | None => Raised (KeyError (KNode (_node v)))
  | Some s =>
      Returned (sum_list ((λ e, if decide (1 < Edge_len e) then Edge_len e - 1
                                else 1) <$> set_elements s))
  end.

Definition NeighborMap_getitem (nbr : Z) (v : NeighborMap) (G : HyperGraph)
    : outcome (list (Edge * positive)) :=
  match node_incidence G !! _node v with
  | None => Raised (KeyError (KNode (_node v)))
  | Some s =>
      let ei := filter (λ e, Edge_contains nbr e = true) (set_elements s) in
      if decide (length ei = 0) then Raised (KeyError (KNode nbr))
      else Returned ((λ e, (e, data e)) <$> ei)
  end.

Definition NeighborAtlas_contains (node : Z) (G : HyperGraph) : bool :=
  bool_decide (is_Some (node_incidence G !! node)).

Definition NeighborAtlas_getitem (node : Z) (G : HyperGraph)
    : outcome NeighborMap :=
  if NeighborAtlas_contains node G then Returned (mkNeighborMap node)
  else Raised (KeyError (KNode node)).

Definition NeighborAtlas_iter (G : HyperGraph) : list (Z * NeighborMap) :=
  (λ p : Z * gmap (nbunch * option pyval) positive,
     (p.1, mkNeighborMap p.1)) <$> map_to_list (node_incidence G).

(** ** The remaining methods of [Edge] and [EdgeData] *)

Definition Edge_ne (e other : Edge) : bool := negb (Edge_eq e other).

Definition EdgeData_delitem (key : string) (d : EdgeData)
    : outcome unit * EdgeData :=
  match _data d with
  | None => (Raised (KeyError (KAttr key)), d)
  | Some m =>
      match m !! key with
      | Some _ => (Returned (), mkEdgeData (Some (delete key m)))
      | None => (Raised (KeyError (KAttr key)), d)
      end
  end.

(** [list(d)]: the keys, none when [_data] is [None]. *)
Definition EdgeData_iter (d : EdgeData) : list string :=
  match _data d with
  | None => []
  | Some m => (map_to_list m).*1
  end.

(** ** Vocabulary of the properties *)

(** [k] identifies an element of [node_incidence[n]]. *)
Definition incident (G : HyperGraph) (n : Z) (k : edge_id) : Prop :=
  ∃ s, node_incidence G !! n = Some s ∧ is_Some (s !! k).

(** The three invariants of the node, incidence and edge dictionaries. *)
Record wf (G : HyperGraph) : Prop := mk_wf {
  keys_agree : dom (node_data G) = dom (node_incidence G);
  edges_incident : ∀ k n,
    is_Some (edge_data G !! k) → n ∈ members k → incident G n k;
  incidence_sound : ∀ n k,
    incident G n k → is_Some (edge_data G !! k) ∧ n ∈ members k
}.

(** The identity of the edge that replaces [k] when [node] leaves it. *)
Definition reduced (node : Z) (k : edge_id) : edge_id :=
  (nbunch_without node k.1, k.2).

(** The state of the graph while [remove_node] walks the edges incident to
    [node], with [todo] still to visit. *)
Definition removing (node : Z) (todo : list Edge)
    (st : HyperGraph * gmap positive EdgeData) : Prop :=
  (node ∉ dom (node_data st.1))
  ∧ dom (node_incidence st.1) = {[node]} ∪ dom (node_data st.1)
  ∧ (∀ k n, is_Some (edge_data st.1 !! k) → n ∈ members k →
            incident st.1 n k)
  ∧ (∀ n k, incident st.1 n k → n ≠ node →
            is_Some (edge_data st.1 !! k) ∧ n ∈ members k)
  ∧ (∀ k, incident st.1 node k →
          node ∈ members k
          ∧ (is_Some (edge_data st.1 !! k) → k ∈ (Edge_hash_key <$> todo)))
  ∧ (∀ e, e ∈ todo → incident st.1 node (Edge_hash_key e)).

(** *** Graphs a caller can build

    [reachable G]: [G] is [HyperGraph()] after a sequence of public mutations
    each of which ran to completion.  The heap is not constrained: between
    two calls the caller may build [Edge] objects and write to their
    [data]. *)
Inductive reachable : HyperGraph → Prop :=
| reach_init : reachable HyperGraph_init
| reach_add_node G node kwds b G' :
    reachable G → add_node node kwds G = (Returned b, G') → reachable G'
| reach_add_edge G h nbunch kwds r G' h' :
    reachable G → add_edge nbunch kwds G h = (Returned r, G', h') →
    reachable G'
| reach_remove_edge G nbunch G' :
    reachable G → remove_edge nbunch G = (Returned (), G') → reachable G'
| reach_remove_node G h node G' h' :
    reachable G → remove_node node G h = (Returned (), (G', h')) →
    reachable G'
| reach_clear G G' :
    reachable G → clear G = (Returned (), G') → reachable G'.

(** *** Sessions

    A script of public calls, run from a given state; like a caller that does
    not catch exceptions, the run stops at the first call that raises, in the
    state that call left behind. *)
Inductive call :=
| Call_add_node (node : Z) (kwds : gmap string pyval)
| Call_add_edge (nbunch : edge_arg) (kwds : gmap string pyval)
| Call_remove_edge (nbunch : edge_arg)
| Call_remove_node (node : Z)
| Call_clear.

Definition discard {A} (o : outcome A) : outcome unit :=
  match o with Returned _ => Returned () | Raised ex => Raised ex end.

Definition run_call (c : call) (st : HyperGraph * gmap positive EdgeData)
    : outcome unit * (HyperGraph * gmap positive EdgeData) :=
  match c with
  | Call_add_node node kwds =>
      let '(o, G') := add_node node kwds st.1 in (discard o, (G', st.2))
  | Call_add_edge nbunch kwds =>
      let '(o, G', h') := add_edge nbunch kwds st.1 st.2 in
      (discard o, (G', h'))
  | Call_remove_edge nbunch =>
      let '(o, G') := remove_edge nbunch st.1 in (o, (G', st.2))
  | Call_remove_node node => remove_node node st.1 st.2
  | Call_clear => let '(o, G') := clear st.1 in (o, (G', st.2))
  end.

Definition session (script : list call)
    : outcome unit * (HyperGraph * gmap positive EdgeData) :=
  for_each run_call script (HyperGraph_init, ∅).

(** *** Scenarios *)

(** The first mutations of the demonstration at the end of the module, up to
    [G.remove_node(2)]. *)
Definition demo_script : list call :=
  [ Call_add_edge (Raw (NTuple [1; 2]%Z)) ∅;
    Call_add_edge (Raw (NSet {[1; 2]}%Z)) ∅;
    Call_add_node 0 {["color" := VInt 0]};
    Call_add_edge (Raw (NTuple [2; 3]%Z)) ∅;
    Call_remove_edge (Raw (NTuple [2; 3]%Z));
    Call_add_edge (Raw (NSet {[2; 3]}%Z)) ∅;
    Call_remove_node 2 ].

Definition demo_graph : HyperGraph := (session demo_script).2.1.

(** One edge over [(1, 2)] registered under the edge key ["a"]. *)
Definition keyed_graph : HyperGraph :=
  (session [Call_add_edge (Raw (NTuple [1; 2]%Z)) {["edgekey" := VStr "a"]}]).2.1.

(** One ordered edge that lists node 1 twice. *)
Definition repeated_member_script : list call :=
  [Call_add_edge (Raw (NTuple [1; 1; 2]%Z)) ∅].

Definition repeated_member_graph : HyperGraph :=
  (session repeated_member_script).2.1.

(** An edge over [(1, 2)] with attribute [a], and one over [(1, 2, 3)] with
    attribute [b], which becomes [(1, 2)] when node 3 is removed. *)
Definition merge_script : list call :=
  [ Call_add_edge (Raw (NTuple [1; 2]%Z)) {["a" := VInt 1]};
    Call_add_edge (Raw (NTuple [1; 2; 3]%Z)) {["b" := VInt 2]} ].

(** One edge whose other member appears twice once node 1 is removed. *)
Definition repeated_other_script : list call :=
  [Call_add_edge (Raw (NTuple [1; 2; 2]%Z)) ∅].

(** One edge over [(1, 2)] with attribute [w]. *)
Definition weighted_script : list call :=
  [Call_add_edge (Raw (NTuple [1; 2]%Z)) {["w" := VInt 1]}].

(** The graph [copy] returns for the graph of [weighted_script]. *)
Definition weighted_copy : HyperGraph :=
  match (copy (session weighted_script).2.1 (session weighted_script).2.2).1
  with
  | Returned H => H
  | Raised _ => HyperGraph_init
  end.

(** *** Vocabulary of the further properties *)

(** The identity [add_edge] computes for its argument. *)
Definition add_edge_key (nbunch : edge_arg) (kwds : gmap string pyval)
    : edge_id :=
  match nbunch with
  | Obj e => Edge_hash_key e
  | Raw nb => (nb, kwds !! "edgekey")
  end.

(** The attributes [add_edge] merges into an edge already registered. *)
Definition add_edge_attrs (nbunch : edge_arg) (kwds : gmap string pyval)
    : gmap string pyval :=
  match nbunch with
  | Obj _ => kwds
  | Raw _ => delete "edgekey" kwds
  end.

(** The attributes of an edge [add_edge] has just registered: those given,
    laid over the contents of the [data] of a pre-built edge. *)
Definition add_edge_new_attrs (nbunch : edge_arg) (kwds : gmap string pyval)
    (h : gmap positive EdgeData) : gmap string pyval :=
  match nbunch with
  | Obj e =>
      match h !! data e with
      | Some d => kwds ∪ EdgeData_items d
      | None => ∅
      end
  | Raw _ => delete "edgekey" kwds
  end.

(** * Properties *)

(** ** Loops *)

Section loops.
Context {A S : Type} (body : A → S → outcome unit * S).

(** A loop that runs to its end carries an invariant, indexed by the
    elements still to visit, from its first state to its last. *)
Lemma for_each_invariant (I : list A → S → Prop) l s s' :
  (∀ x l' s1 s2, I (x :: l') s1 → body x s1 = (Returned (), s2) → I l' s2) →
  I l s → for_each body l s = (Returned (), s') → I [] s'.
Proof.
  intros Hstep. revert s.
  induction l as [|x l IH]; intros s HI Hrun; simpl in Hrun.
  - by simplify_eq.
  - destruct (body x s) as [[[]|ex] s1] eqn:Hb; [|done].
    eapply IH; [|done]. eapply Hstep; eauto.
Qed.

Lemma for_each_app l1 l2 s :
  for_each body (l1 ++ l2) s =
  match for_each body l1 s with
  | (Returned _, s1) => for_each body l2 s1
  | (Raised ex, s1) => (Raised ex, s1)
  end.
Proof.
  revert s. induction l1 as [|x l1 IH]; intros s; simpl; [done|].
  destruct (body x s) as [[[]|ex] s1]; [apply IH|done].
Qed.
End loops.

(** ** The structural invariants *)

Lemma incident_insert G nd ed n s x k :
  incident (mkHyperGraph nd (<[n:=s]> (node_incidence G)) ed) x k ↔
  (x = n ∧ is_Some (s !! k)) ∨ (x ≠ n ∧ incident G x k).
Proof.
  unfold incident; simpl. destruct (decide (x = n)) as [->|Hne].
  - rewrite lookup_insert_eq. naive_solver.
  - rewrite lookup_insert_ne; [|done]. naive_solver.
Qed.

Lemma set_add_lookup (e : Edge) (s : gmap (nbunch * option pyval) positive) k :
  is_Some (set_add e s !! k) ↔ is_Some (s !! k) ∨ k = Edge_hash_key e.
Proof.
  unfold set_add. destruct (s !! Edge_hash_key e) eqn:He.
  - split; [by left|]. intros [?| ->]; [done|]. by rewrite He.
  - destruct (decide (k = Edge_hash_key e)) as [->|Hne].
    + rewrite lookup_insert_eq. naive_solver.
    + rewrite lookup_insert_ne; [|done]. naive_solver.
Qed.

Lemma wf_init : wf HyperGraph_init.
Proof.
  unfold HyperGraph_init. split; simpl.
  - done.
  - intros k n [? H]. by rewrite lookup_empty in H.
  - intros n k (s & H & _). simpl in H. by rewrite lookup_empty in H.
Qed.

(** ** [add_node] *)

Lemma add_node_returns node kwds G :
  ∃ b G', add_node node kwds G = (Returned b, G').
Proof. unfold add_node. destruct (node_data G !! node); eauto. Qed.

Lemma add_node_wf node kwds G o G' :
  wf G → add_node node kwds G = (o, G') → wf G'.
Proof.
  intros [H1 H2 H3] Hrun. unfold add_node in Hrun.
  destruct (node_data G !! node) as [d|] eqn:Hd; simplify_eq.
  - split; simpl; [|done..].
    rewrite dom_insert_lookup_L; [done|by eauto].
  - assert (node_incidence G !! node = None) as Hi.
    { apply not_elem_of_dom. rewrite <- H1. by apply not_elem_of_dom. }
    split; simpl.
    + by rewrite !dom_insert_L, H1.
    + intros k n Hk Hn. apply incident_insert.
      destruct (H2 k n Hk Hn) as (s & Hs & Hsk).
      right. split; [|by exists s]. intros ->. congruence.
    + intros n k [[-> [? H]]|[_ H]]%incident_insert.
      * by rewrite lookup_empty in H.
      * by apply H3.
Qed.

(** ** [add_edge] *)

Lemma add_edge_body_spec (e : Edge) x G :
  dom (node_data G) = dom (node_incidence G) →
  ∃ G', add_edge_body e x G = (Returned (), G')
    ∧ edge_data G' = edge_data G
    ∧ dom (node_data G') = dom (node_incidence G')
    ∧ dom (node_data G') = {[x]} ∪ dom (node_data G)
    ∧ ∀ n k, incident G' n k ↔ incident G n k ∨ (n = x ∧ k = Edge_hash_key e).
Proof.
  intros Hd. unfold add_edge_body.
  destruct (node_data G !! x) as [d|] eqn:Hx.
  - assert (is_Some (node_incidence G !! x)) as [s Hs].
    { apply elem_of_dom. rewrite <- Hd. apply elem_of_dom. eauto. }
    rewrite Hs. eexists; split; [done|]; simpl.
    split; [done|]. split; [rewrite dom_insert_lookup_L; eauto|].
    split; [apply elem_of_dom_2 in Hx; set_solver|].
    intros n k. rewrite incident_insert, set_add_lookup. unfold incident.
    destruct (decide (n = x)) as [->|]; naive_solver.
  - assert (node_incidence G !! x = None) as Hs.
    { apply not_elem_of_dom. rewrite <- Hd. by apply not_elem_of_dom. }
    eexists; split; [done|]; simpl.
    split; [done|]. split; [rewrite !dom_insert_L; congruence|].
    split; [by rewrite dom_insert_L|].
    intros n k. rewrite incident_insert. unfold incident.
    destruct (decide (k = Edge_hash_key e)) as [->|Hk].
    + rewrite lookup_singleton_eq. naive_solver.
    + rewrite lookup_singleton_ne; [|done].
      split; [|naive_solver].
      intros [[_ [? ?]]|[? ?]]; [done|by left].
Qed.

Lemma add_edge_loop_spec (e : Edge) l G :
  dom (node_data G) = dom (node_incidence G) →
  ∃ G', for_each (add_edge_body e) l G = (Returned (), G')
    ∧ edge_data G' = edge_data G
    ∧ dom (node_data G') = dom (node_incidence G')
    ∧ dom (node_data G') = list_to_set l ∪ dom (node_data G)
    ∧ ∀ n k, incident G' n k ↔ incident G n k ∨ (n ∈ l ∧ k = Edge_hash_key e).
Proof.
  revert G. induction l as [|x l IH]; intros G Hd; simpl.
  - eexists; split; [done|]. repeat split; [done|set_solver|by left|].
    intros [?|[H _]]; [done|]. by apply elem_of_nil in H.
  - destruct (add_edge_body_spec e x G Hd) as (G1 & -> & He1 & Hd1 & Hn1 & Hi1).
    destruct (IH G1 Hd1) as (G2 & -> & He2 & Hd2 & Hn2 & Hi2).
    exists G2. split; [done|]. split; [congruence|]. split; [done|].
    split; [rewrite Hn2, Hn1; set_solver|].
    intros n k. rewrite Hi2, Hi1, elem_of_cons. naive_solver.
Qed.

(** What [add_edge] does when the node and incidence dictionaries have the
    same keys: it never raises; an edge already present is left in place, a
    new one is registered and made incident to each of its members. *)
Lemma add_edge_spec nbunch kwds G h :
  dom (node_data G) = dom (node_incidence G) →
  ∃ e kwds' h1, add_edge_resolve nbunch kwds h = (e, kwds', h1) ∧
    ((∃ kd d, edge_data G !! Edge_hash_key e = Some (kd, d) ∧
        add_edge nbunch kwds G h
        = (Returned RFalse, G, heap_update d kwds' h1)) ∨
     (edge_data G !! Edge_hash_key e = None ∧
      ∃ G', add_edge nbunch kwds G h = (Returned (REdge e), G', h1)
        ∧ edge_data G'
          = <[Edge_hash_key e := (data e, data e)]> (edge_data G)
        ∧ dom (node_data G') = dom (node_incidence G')
        ∧ dom (node_data G') = list_to_set (Edge_iter e) ∪ dom (node_data G)
        ∧ ∀ n k, incident G' n k ↔
                 incident G n k ∨ (n ∈ Edge_iter e ∧ k = Edge_hash_key e))).
Proof.
  intros Hd. unfold add_edge.
  destruct (add_edge_resolve nbunch kwds h) as [[e kwds'] h1].
  exists e, kwds', h1. split; [done|].
  destruct (edge_data G !! Edge_hash_key e) as [[kd d]|] eqn:Hk.
  - left. by exists kd, d.
  - right. split; [done|].
    edestruct (add_edge_loop_spec e (Edge_iter e)) as (G' & -> & H); [|by eauto].
    done.
Qed.

Lemma add_edge_returns nbunch kwds G h :
  dom (node_data G) = dom (node_incidence G) →
  ∃ r G' h', add_edge nbunch kwds G h = (Returned r, G', h').
Proof.
  intros Hd.
  destruct (add_edge_spec nbunch kwds G h Hd)
    as (e & kw & h1 & _ & [(kd & d & _ & ->)|(_ & G' & -> & _)]); eauto.
Qed.

Lemma add_edge_wf nbunch kwds G h o G' h' :
  wf G → add_edge nbunch kwds G h = (o, G', h') → wf G'.
Proof.
  intros [H1 H2 H3] Hrun.
  destruct (add_edge_spec nbunch kwds G h H1)
    as (e & kw & h1 & _ & [(kd & d & _ & Heq)|(Hnew & G1 & Heq & He & Hd & _ & Hi)]);
    rewrite Heq in Hrun; simplify_eq; [done|].
  split; [done| |].
  - intros k n Hk Hn. apply Hi. rewrite He in Hk.
    destruct (decide (k = Edge_hash_key e)) as [->|Hne]; [by right|].
    rewrite lookup_insert_ne in Hk; [|done]. left. by apply H2.
  - intros n k [Hold|[Hn ->]]%Hi.
    + destruct (H3 n k Hold) as [Hk Hn]. split; [|done].
      rewrite He. destruct (decide (Edge_hash_key e = k)) as [->|Hne].
      * by rewrite lookup_insert_eq.
      * by rewrite lookup_insert_ne.
    + rewrite He, lookup_insert_eq. split; [done|]. exact Hn.
Qed.

(** ** [remove_edge] *)

Lemma incidence_remove_spec k x G G' :
  incidence_remove k x G = (Returned (), G') →
  incident G x k
  ∧ node_data G' = node_data G ∧ edge_data G' = edge_data G
  ∧ dom (node_incidence G') = dom (node_incidence G)
  ∧ ∀ n k', incident G' n k' ↔ incident G n k' ∧ ¬ (n = x ∧ k' = k).
Proof.
  unfold incidence_remove. intros Hrun.
  destruct (node_incidence G !! x) as [s|] eqn:Hs; [|done].
  destruct (s !! k) as [l|] eqn:Hk; [|done]. simplify_eq; simpl.
  split; [exists s; eauto|]. split; [done|]. split; [done|].
  split; [rewrite dom_insert_lookup_L; eauto|].
  intros n k'. rewrite incident_insert. unfold incident.
  destruct (decide (k' = k)) as [->|Hne].
  - rewrite lookup_delete_eq. split.
    + intros [[_ [? ?]]|[? ?]]; [done|]. naive_solver.
    + intros [? ?]. right. naive_solver.
  - rewrite lookup_delete_ne; [|done].
    destruct (decide (n = x)) as [->|]; naive_solver.
Qed.

Lemma incidence_remove_raises k x G ex G' :
  incidence_remove k x G = (Raised ex, G') → G' = G ∧ ¬ incident G x k.
Proof.
  unfold incidence_remove, incident. intros Hrun.
  destruct (node_incidence G !! x) as [s|] eqn:Hs; [|naive_solver].
  destruct (s !! k) as [l|] eqn:Hk; [done|]. simplify_eq.
  split; [done|]. intros (s' & ? & [? ?]). congruence.
Qed.

Lemma incidence_remove_loop_spec k l G G' :
  for_each (incidence_remove k) l G = (Returned (), G') →
  node_data G' = node_data G ∧ edge_data G' = edge_data G
  ∧ dom (node_incidence G') = dom (node_incidence G)
  ∧ ∀ n k', incident G' n k' ↔ incident G n k' ∧ ¬ (n ∈ l ∧ k' = k).
Proof.
  revert G. induction l as [|x l IH]; intros G Hrun; simpl in Hrun.
  - simplify_eq. split; [done|]. split; [done|]. split; [done|].
    intros n k'. split; [|by intros [? _]].
    intros H. split; [done|]. intros [Hn _]. by apply elem_of_nil in Hn.
  - destruct (incidence_remove k x G) as [[[]|ex] G1] eqn:Hb; [|done].
    apply incidence_remove_spec in Hb as (_ & Hn1 & He1 & Hd1 & Hi1).
    apply IH in Hrun as (Hn2 & He2 & Hd2 & Hi2).
    split; [congruence|]. split; [congruence|]. split; [congruence|].
    intros n k'. rewrite Hi2, Hi1, elem_of_cons. split.
    + intros [[H Hx] Hl]. split; [done|].
      intros [[->|Hn] ->]; [by apply Hx|by apply Hl].
    + intros [H Hno]. split; [split; [done|]|].
      * intros [-> ->]. apply Hno. split; [by left|done].
      * intros [Hn ->]. apply Hno. split; [by right|done].
Qed.

(** A member listed twice makes the second removal raise. *)
Lemma incidence_remove_loop_NoDup k l G G' :
  for_each (incidence_remove k) l G = (Returned (), G') → NoDup l.
Proof.
  revert G. induction l as [|x l IH]; intros G Hrun; simpl in Hrun.
  - constructor.
  - destruct (incidence_remove k x G) as [[[]|ex] G1] eqn:Hb; [|done].
    apply incidence_remove_spec in Hb as (_ & _ & _ & _ & Hi1).
    constructor; [|by eapply IH].
    intros Hx. destruct l as [|y l]; [by apply elem_of_nil in Hx|].
    assert (∀ l G, x ∈ l → ¬ incident G x k →
              ∀ G', for_each (incidence_remove k) l G ≠ (Returned (), G'))
      as Hfail.
    { clear. intros l. induction l as [|y l IH]; intros G Hx Hno G' Hrun.
      - by apply elem_of_nil in Hx.
      - simpl in Hrun.
        destruct (incidence_remove k y G) as [[[]|ex] G1] eqn:Hb; [|done].
        apply incidence_remove_spec in Hb as (Hy & _ & _ & _ & Hi).
        apply elem_of_cons in Hx as [->|Hx]; [done|].
        eapply (IH G1); [done| |done]. intros H. apply Hi in H. naive_solver. }
    eapply (Hfail _ G1); [done| |done].
    intros H. apply Hi1 in H. naive_solver.
Qed.

Lemma remove_edge_missing nbunch G :
  edge_data G !! resolve nbunch = None →
  remove_edge nbunch G = (Raised (KeyError (KEdge (resolve nbunch))), G).
Proof. intros H. unfold remove_edge. by rewrite H. Qed.

Lemma remove_edge_returned nbunch G G' :
  remove_edge nbunch G = (Returned (), G') →
  is_Some (edge_data G !! resolve nbunch)
  ∧ node_data G' = node_data G
  ∧ edge_data G' = delete (resolve nbunch) (edge_data G)
  ∧ dom (node_incidence G') = dom (node_incidence G)
  ∧ ∀ n k, incident G' n k ↔
           incident G n k ∧ ¬ (n ∈ members (resolve nbunch) ∧ k = resolve nbunch).
Proof.
  unfold remove_edge. intros Hrun.
  destruct (edge_data G !! resolve nbunch) as [p|] eqn:Hk; [|done].
  apply incidence_remove_loop_spec in Hrun as (? & ? & ? & ?).
  split; [by eauto|]. done.
Qed.

Lemma remove_edge_wf nbunch G G' :
  wf G → remove_edge nbunch G = (Returned (), G') → wf G'.
Proof.
  intros [H1 H2 H3] (_ & Hn & He & Hd & Hi)%remove_edge_returned.
  split.
  - congruence.
  - intros k n Hk Hm. rewrite He in Hk. apply Hi.
    destruct (decide (k = resolve nbunch)) as [->|Hne].
    + rewrite lookup_delete_eq in Hk. by destruct Hk.
    + rewrite lookup_delete_ne in Hk; [|done]. split; [by apply H2|].
      by intros [_ ?].
  - intros n k [Hold Hno]%Hi. destruct (H3 n k Hold) as [Hk Hm].
    split; [|done]. rewrite He.
    destruct (decide (k = resolve nbunch)) as [->|Hne]; [by destruct Hno|].
    by rewrite lookup_delete_ne.
Qed.

(** ** [remove_node] *)

Lemma Edge_len_iter e : Edge_len e = length (Edge_iter e).
Proof. unfold Edge_len, Edge_iter. by destruct (_nodes e). Qed.

Lemma elem_of_nbunch_without node nb n :
  n ∈ nbunch_iter (nbunch_without node nb) ↔ n ∈ nbunch_iter nb ∧ n ≠ node.
Proof.
  destruct nb as [s|l]; simpl.
  - rewrite elem_of_elements, elem_of_list_to_set, list_elem_of_filter.
    tauto.
  - rewrite list_elem_of_filter. tauto.
Qed.

Lemma dict_setitem_lookup (e : Edge) (v : positive)
    (d : gmap (nbunch * option pyval) (positive * positive)) k :
  is_Some (dict_setitem e v d !! k) ↔ is_Some (d !! k) ∨ k = Edge_hash_key e.
Proof.
  unfold dict_setitem.
  destruct (decide (k = Edge_hash_key e)) as [->|Hne].
  - destruct (d !! Edge_hash_key e) as [[kd ?]|];
      rewrite lookup_insert_eq; naive_solver.
  - destruct (d !! Edge_hash_key e) as [[kd ?]|];
      (rewrite lookup_insert_ne; [|done]); naive_solver.
Qed.

Lemma incidence_add_spec (e : Edge) x G G' :
  incidence_add e x G = (Returned (), G') →
  node_data G' = node_data G ∧ edge_data G' = edge_data G
  ∧ dom (node_incidence G') = dom (node_incidence G)
  ∧ ∀ n k, incident G' n k ↔ incident G n k ∨ (n = x ∧ k = Edge_hash_key e).
Proof.
  unfold incidence_add. intros Hrun.
  destruct (node_incidence G !! x) as [s|] eqn:Hs; [|done].
  simplify_eq; simpl.
  split; [done|]. split; [done|].
  split; [rewrite dom_insert_lookup_L; eauto|].
  intros n k. rewrite incident_insert, set_add_lookup. unfold incident.
  destruct (decide (n = x)) as [->|]; naive_solver.
Qed.

Lemma incidence_add_loop_spec (e : Edge) l G G' :
  for_each (incidence_add e) l G = (Returned (), G') →
  node_data G' = node_data G ∧ edge_data G' = edge_data G
  ∧ dom (node_incidence G') = dom (node_incidence G)
  ∧ ∀ n k, incident G' n k ↔ incident G n k ∨ (n ∈ l ∧ k = Edge_hash_key e).
Proof.
  revert G. induction l as [|x l IH]; intros G Hrun; simpl in Hrun.
  - simplify_eq. split; [done|]. split; [done|]. split; [done|].
    intros n k. split; [by left|].
    intros [?|[Hn _]]; [done|]. by apply elem_of_nil in Hn.
  - destruct (incidence_add e x G) as [[[]|ex] G1] eqn:Hb; [|done].
    apply incidence_add_spec in Hb as (Hn1 & He1 & Hd1 & Hi1).
    apply IH in Hrun as (Hn2 & He2 & Hd2 & Hi2).
    split; [congruence|]. split; [congruence|]. split; [congruence|].
    intros n k. rewrite Hi2, Hi1, elem_of_cons. naive_solver.
Qed.

Lemma elem_of_members_reduced node k n :
  n ∈ members (reduced node k) ↔ n ∈ members k ∧ n ≠ node.
Proof. apply elem_of_nbunch_without. Qed.

(** One iteration of the loop of [remove_node] that runs to its end: [e] was
    registered; it leaves the edge dictionary and the incidence sets of its
    other members, where the reduced edge takes its place when that has more
    than one member. *)
Lemma remove_node_body_spec node e G h G' h' :
  remove_node_body node e (G, h) = (Returned (), (G', h')) →
  let k := Edge_hash_key e in
  let k' := reduced node k in
  let ins := 1 < length (members k') in
  is_Some (edge_data G !! k)
  ∧ node_data G' = node_data G
  ∧ dom (node_incidence G') = dom (node_incidence G)
  ∧ (∀ x, is_Some (edge_data G' !! x) ↔
          (x ≠ k ∧ is_Some (edge_data G !! x)) ∨ (ins ∧ x = k'))
  ∧ (∀ n x, incident G' n x ↔
            (incident G n x ∨ (ins ∧ n ∈ members k' ∧ x = k'))
            ∧ ¬ (n ∈ members k' ∧ x = k)).
Proof.
  intros Hrun k k' ins. unfold remove_node_body in Hrun.
  destruct (edge_data G !! Edge_hash_key e) as [p|] eqn:Hk; [|done].
  destruct (star_call_ok _ _); [|done].
  unfold Edge_init, heap_alloc in Hrun.
  set (newe := mkEdge _ _ _) in Hrun.
  assert (Edge_hash_key newe = k') as Hk' by done.
  assert (Edge_iter newe = members k') as Hm' by done.
  rewrite Edge_len_iter, Hm' in Hrun. fold ins in Hrun.
  split; [by eauto|].
  destruct (decide ins) as [Hins|Hins].
  - destruct (for_each (incidence_add newe) _ _) as [[[]|ex] G3] eqn:Hadd;
      [|done].
    destruct (for_each (incidence_remove _) _ G3) as [o G4] eqn:Hrem.
    simplify_eq.
    apply incidence_add_loop_spec in Hadd as (Hn3 & He3 & Hd3 & Hi3).
    apply incidence_remove_loop_spec in Hrem as (Hn4 & He4 & Hd4 & Hi4).
    simpl in *.
    split; [congruence|]. split; [congruence|]. split.
    + intros x. rewrite He4, He3, dict_setitem_lookup, Hk'.
      destruct (decide (x = Edge_hash_key e)) as [->|Hne].
      * rewrite lookup_delete_eq. fold k. split.
        -- intros [[? ?]|?]; [done|]. by right.
        -- intros [[? ?]|[? ?]]; [done|]. by right.
      * rewrite lookup_delete_ne; [|done]. fold k in Hne. split.
        -- intros [?|?]; [by left|by right].
        -- intros [[? ?]|[? ?]]; [by left|by right].
    + intros n x. rewrite Hi4, Hi3, Hk'. fold k. unfold incident at 2; simpl.
      fold (incident G n x). split.
      * intros [[?|[? ?]] ?]; (split; [|done]); [by left|by right].
      * intros [[?|(_ & ? & ?)] ?]; (split; [|done]); [by left|by right].
  - destruct (for_each (incidence_remove _) _ _) as [o G4] eqn:Hrem.
    simplify_eq.
    apply incidence_remove_loop_spec in Hrem as (Hn4 & He4 & Hd4 & Hi4).
    simpl in *.
    split; [done|]. split; [done|]. split.
    + intros x. rewrite He4.
      destruct (decide (x = Edge_hash_key e)) as [->|Hne].
      * rewrite lookup_delete_eq. fold k. split.
        -- by intros [? ?].
        -- intros [[? ?]|[? ?]]; done.
      * rewrite lookup_delete_ne; [|done]. fold k in Hne. split.
        -- by left.
        -- intros [[? ?]|[? ?]]; done.
    + intros n x. rewrite Hi4. fold k. unfold incident at 2; simpl.
      fold (incident G n x). split.
      * intros [? ?]. split; [by left|done].
      * intros [[?|(? & _)] ?]; [done|done].
Qed.

Lemma elem_of_set_elements (s : gmap (nbunch * option pyval) positive) e :
  e ∈ set_elements s ↔ s !! Edge_hash_key e = Some (data e).
Proof.
  unfold set_elements. rewrite list_elem_of_fmap. split.
  - intros ([[nb key] l] & -> & H). by apply elem_of_map_to_list in H.
  - intros H. exists (Edge_hash_key e, data e). split; [by destruct e|].
    by apply elem_of_map_to_list.
Qed.

Lemma elem_of_set_elements_keys (s : gmap (nbunch * option pyval) positive) k :
  k ∈ (Edge_hash_key <$> set_elements s) ↔ is_Some (s !! k).
Proof.
  rewrite list_elem_of_fmap. split.
  - intros (e & -> & H). apply elem_of_set_elements in H. eauto.
  - intros [l H]. exists (mkEdge k.1 k.2 l). destruct k as [nb key].
    split; [done|]. by apply elem_of_set_elements.
Qed.

Lemma removing_step node e todo st st' :
  removing node (e :: todo) st →
  remove_node_body node e st = (Returned (), st') →
  removing node todo st'.
Proof.
  destruct st as [G h], st' as [G' h'].
  intros (I1 & I2 & I3 & I4 & I5 & I6) Hrun; simpl in *.
  apply remove_node_body_spec in Hrun as (Hk & Hn & Hd & He & Hi).
  set (k := Edge_hash_key e) in *. set (k' := reduced node k) in *.
  assert (node ∉ members k') as Hnode.
  { intros H. apply elem_of_members_reduced in H. by destruct H. }
  assert (node ∈ members k) as Hmem.
  { apply I5, I6. by left. }
  assert (k' ≠ k) as Hkk by (intros Heq; by rewrite Heq in Hnode).
  assert (∀ x, incident G' node x ↔ incident G node x) as Hsame.
  { intros x. rewrite Hi. split; [|intros ?; split; [by left|by intros [? _]]].
    intros [[?|(_ & ? & _)] _]; done. }
  unfold removing; simpl.
  split; [by rewrite Hn|]. split; [by rewrite Hn, Hd|]. split; [|split; [|split]].
  - intros x n [[Hx Hold]|[Hins ->]]%He Hm; apply Hi.
    + split; [left; by apply I3|]. by intros [_ ?].
    + split; [by right|]. by intros [_ ?].
  - intros n x [[Hold|(Hins & Hm & ->)] Hno]%Hi Hne.
    + destruct (I4 n x Hold Hne) as [Hx Hm]. split; [|done].
      apply He. left. split; [|done]. intros ->. apply Hno. split; [|done].
      by apply elem_of_members_reduced.
    + split; [|done]. apply He. by right.
  - intros x Hx%Hsame. destruct (I5 x Hx) as [Hm Htodo]. split; [done|].
    intros [[Hne Hold]|[_ ->]]%He; [|done].
    apply Htodo, elem_of_cons in Hold as [->|?]; done.
  - intros e' He'. apply Hsame, I6. by right.
Qed.

(** [remove_node] that returns: the invariants survive, [node] is gone from
    the node dictionary and from every registered edge. *)
Lemma remove_node_returned node G h G' h' :
  wf G → remove_node node G h = (Returned (), (G', h')) →
  wf G'
  ∧ dom (node_data G') = dom (node_data G) ∖ {[node]}
  ∧ ∀ k, is_Some (edge_data G' !! k) → node ∉ members k.
Proof.
  intros [H1 H2 H3] Hrun. unfold remove_node in Hrun.
  destruct (node_data G !! node) as [d|] eqn:Hnd; [|done]. simpl in Hrun.
  destruct (node_incidence G !! node) as [s|] eqn:Hs; [|done].
  destruct (for_each _ _ _) as [[[]|ex] [G2 h2]] eqn:Hloop; [|done].
  simplify_eq. pose proof Hloop as Hloop'.
  apply (for_each_invariant _ (removing node)) in Hloop.
  - destruct Hloop as (I1 & I2 & I3 & I4 & I5 & _); simpl in *.
    assert (∀ k, is_Some (edge_data G2 !! k) → node ∉ members k) as Hgone.
    { intros k Hk Hm. destruct (I5 k (I3 k node Hk Hm)) as [_ Hin].
      specialize (Hin Hk). by apply elem_of_nil in Hin. }
    assert (dom (node_data G2) = dom (node_data G) ∖ {[node]}) as Hdom.
    { apply (for_each_invariant _
        (λ _ st, node_data st.1 = delete node (node_data G))) in Hloop'.
      - simpl in Hloop'. by rewrite Hloop', dom_delete_L.
      - intros x l' [Ga ha] [Gb hb] Ha Hb.
        apply remove_node_body_spec in Hb as (_ & Hb & _). simpl in *.
        congruence.
      - done. }
    split; [|done]. split; simpl.
    + rewrite dom_delete_L, I2. set_solver.
    + intros k n Hk Hm. destruct (I3 k n Hk Hm) as (s' & Hs' & Hsk).
      exists s'. split; [|done]. simpl. rewrite lookup_delete_ne; [done|].
      intros ->. by apply (Hgone k).
    + intros n k (s' & Hs' & Hsk). simpl in Hs'.
      destruct (decide (n = node)) as [->|Hne].
      * by rewrite lookup_delete_eq in Hs'.
      * rewrite lookup_delete_ne in Hs'; [|done]. apply I4; [|done].
        by exists s'.
  - intros x l' s1 s2. apply removing_step.
  - unfold removing; simpl. apply elem_of_dom_2 in Hnd as Hin.
    split; [rewrite dom_delete_L; set_solver|].
    split; [rewrite dom_delete_L, <- H1; apply set_eq; intros y;
            destruct (decide (y = node)); set_solver|].
    split; [done|]. split; [by intros n k H _; apply H3|].
    split.
    + intros k Hk. split; [by apply H3|]. intros _.
      destruct Hk as (s' & Hs' & Hsk). simpl in Hs'. simplify_eq.
      by apply elem_of_set_elements_keys.
    + intros e He. exists s. split; [done|].
      apply elem_of_set_elements in He. eauto.
Qed.

Lemma remove_node_wf node G h G' h' :
  wf G → remove_node node G h = (Returned (), (G', h')) → wf G'.
Proof. intros HG Hrun. by apply (remove_node_returned _ _ _ _ _ HG Hrun). Qed.

Lemma clear_wf G o G' : clear G = (o, G') → wf G'.
Proof.
  unfold clear. intros H.
  assert (G' = HyperGraph_init) as -> by (by case_match; simplify_eq).
  apply wf_init.
Qed.

Lemma reachable_wf G : reachable G → wf G.
Proof.
  induction 1 as [|G node kwds b G' _ IH Hrun|G h nb kwds r G' h' _ IH Hrun
                  |G nb G' _ IH Hrun|G h node G' h' _ IH Hrun|G G' _ IH Hrun].
  - apply wf_init.
  - by eapply add_node_wf.
  - by eapply add_edge_wf.
  - by eapply remove_edge_wf.
  - by eapply remove_node_wf.
  - by eapply clear_wf.
Qed.

(** C3.  After every public mutation that completes, on a graph built by
    such mutations: the node-attribute map and the incidence map have the
    same keys; every member of every registered edge is a key of the
    incidence map and has the edge in its incidence set; every edge in an
    incidence set is registered and has that node among its members. *)
Theorem invariants_after_every_mutation G :
  reachable G →
  dom (node_data G) = dom (node_incidence G)
  ∧ (∀ k n, is_Some (edge_data G !! k) → n ∈ members k →
            ∃ s, node_incidence G !! n = Some s ∧ is_Some (s !! k))
  ∧ (∀ n s k, node_incidence G !! n = Some s → is_Some (s !! k) →
              is_Some (edge_data G !! k) ∧ n ∈ members k).
Proof.
  intros [H1 H2 H3]%reachable_wf. split; [done|]. split; [exact H2|].
  intros n s k Hs Hk. apply H3. by exists s.
Qed.

(** ** Sessions *)

Lemma outcome_pair_returned {S} (x : outcome unit * S) :
  returned x.1 = true → x = (Returned (), x.2).
Proof. by destruct x as [[[]|ex] s]. Qed.

Lemma run_call_reachable c st st' :
  reachable st.1 → run_call c st = (Returned (), st') → reachable st'.1.
Proof.
  destruct st as [G h], st' as [G' h']. intros HG Hrun.
  destruct c as [node kwds|nb kwds|nb|node|]; simpl in *.
  - destruct (add_node node kwds G) as [[b|ex] G1] eqn:Hc; simplify_eq.
    by eapply reach_add_node.
  - destruct (add_edge nb kwds G h) as [[[r|ex] G1] h1] eqn:Hc; simplify_eq.
    by eapply reach_add_edge.
  - destruct (remove_edge nb G) as [[[]|ex] G1] eqn:Hc; simplify_eq.
    by eapply reach_remove_edge.
  - by eapply reach_remove_node.
  - destruct (clear G) as [[[]|ex] G1] eqn:Hc; simplify_eq;
      by eapply reach_clear.
Qed.

Lemma session_reachable script :
  returned (session script).1 = true → reachable (session script).2.1.
Proof.
  intros H%outcome_pair_returned. unfold session in *.
  apply (for_each_invariant _ (λ _ st, reachable st.1)) in H; [done| |].
  - intros c _ s1 s2. apply run_call_reachable.
  - apply reach_init.
Qed.

Lemma invariants_after_every_mutation_witness :
  dom (node_data demo_graph) = dom (node_incidence demo_graph)
  ∧ (∀ k n, is_Some (edge_data demo_graph !! k) → n ∈ members k →
            ∃ s, node_incidence demo_graph !! n = Some s ∧ is_Some (s !! k))
  ∧ (∀ n s k, node_incidence demo_graph !! n = Some s → is_Some (s !! k) →
              is_Some (edge_data demo_graph !! k) ∧ n ∈ members k).
Proof.
  apply (invariants_after_every_mutation demo_graph).
  apply session_reachable. vm_compute. reflexivity.
Defined.

Example demo_graph_shape :
  order demo_graph = 3 ∧ size_ demo_graph = 0
  ∧ nodes demo_graph = {[0; 1; 3]}%Z.
Proof.
  split; [by vm_compute|]. split; [by vm_compute|].
  apply (bool_decide_unpack _). by vm_compute.
Qed.

(** ** [clear] *)

(** C5 (the code departs from the claim).  [clear] never returns normally:
    once the three dictionaries are empty it looks up [self.graph], which no
    instance has, and raises [AttributeError].  On the emptied graph a
    [NeighborMap] raises [KeyError] for its node when iterated or measured,
    whereas a [NeighborAtlas] iterates over nothing. *)
Theorem clear_raises_AttributeError G :
  clear G = (Raised (AttributeError "graph"), HyperGraph_init)
  ∧ (∀ v, NeighborMap_iter v (clear G).2 = Raised (KeyError (KNode (_node v)))
          ∧ NeighborMap_len v (clear G).2
            = Raised (KeyError (KNode (_node v))))
  ∧ NeighborAtlas_iter (clear G).2 = [].
Proof. split; [reflexivity|]. split; [|reflexivity]. by intros []. Qed.

(** ** [neighbors] *)

(** C8, as stated, fails on the fresh graph: node 1 is absent and the call
    [neighbors(1)] raises nothing. *)
Lemma neighbors_absent_call_counterexample :
(1%Z ∉ nodes HyperGraph_init)
  ∧ ¬ ∃ ex, neighbors 1 HyperGraph_init = Raised ex.
Proof.
  split; [|by intros [ex ?]].
  unfold nodes, HyperGraph_init; simpl. rewrite dom_empty_L. set_solver.
Qed.

(** C8 (amended).  For a node absent from the graph, the call
    [neighbors(n)] itself returns a generator without failing; the
    [KeyError] for [n] is raised when that generator is consumed, and no
    empty sequence is produced in its place. *)
Theorem neighbors_absent_fails_when_consumed G n :
  dom (node_data G) = dom (node_incidence G) → n ∉ nodes G →
  ∃ g, neighbors n G = Returned g
       ∧ generator_list g G = Raised (KeyError (KNode n)).
Proof.
  intros Hd Hn. exists (mkGenerator n). split; [done|].
  unfold generator_list, neighbors_body; simpl.
  unfold nodes in Hn. rewrite Hd in Hn. apply not_elem_of_dom in Hn.
  by rewrite Hn.
Qed.

Lemma neighbors_absent_fails_when_consumed_witness :
  ∃ g, neighbors 5 demo_graph = Returned g
       ∧ generator_list g demo_graph = Raised (KeyError (KNode 5)).
Proof.
  apply (neighbors_absent_fails_when_consumed demo_graph 5).
  - apply (bool_decide_unpack _). by vm_compute.
  - apply (bool_decide_unpack _). by vm_compute.
Defined.

(** ** Edges with an empty member collection *)

(** C2, as stated, fails on the fresh graph: [add_edge(())] returns the new
    edge, which [has_edge(())] then finds. *)
Lemma add_edge_empty_tuple_counterexample :
  add_edge (Raw (NTuple [])) ∅ HyperGraph_init ∅
  = (Returned (REdge (mkEdge (NTuple []) None 1)),
     mkHyperGraph ∅ ∅ {[ (NTuple [], None) := (1%positive, 1%positive) ]},
     {[ 1%positive := mkEdgeData None ]})
  ∧ has_edge (Raw (NTuple []))
      (add_edge (Raw (NTuple [])) ∅ HyperGraph_init ∅).1.2 = true.
Proof. split; [apply (bool_decide_unpack _)|]; by vm_compute. Qed.

(** C2 (amended).  [add_edge] with an empty member collection does not
    fail: it returns normally, and afterwards the edge-attribute map holds an
    edge with the empty member collection and the given [edgekey]; the
    node-attribute map and the incidence map are unchanged. *)
Theorem add_edge_empty_members_registers nb kwds G h :
  nbunch_iter nb = [] →
  ∃ r G' h', add_edge (Raw nb) kwds G h = (Returned r, G', h')
    ∧ is_Some (edge_data G' !! (nb, kwds !! "edgekey"))
    ∧ node_data G' = node_data G
    ∧ node_incidence G' = node_incidence G.
Proof.
  intros Hnb.
  unfold add_edge, add_edge_resolve, Edge_init, heap_alloc, Edge_hash_key,
    Edge_iter; simpl.
  destruct (edge_data G !! (nb, kwds !! "edgekey")) as [[kd d]|] eqn:Hk.
  - do 3 eexists. split; [done|]. rewrite Hk. eauto.
  - rewrite Hnb; simpl. do 3 eexists. split; [done|]; simpl.
    by rewrite lookup_insert_eq.
Qed.

Lemma add_edge_empty_members_registers_witness :
  ∃ r G' h', add_edge (Raw (NSet ∅)) {["w" := VInt 3]} demo_graph ∅
             = (Returned r, G', h')
    ∧ is_Some (edge_data G' !! (NSet ∅, ({["w" := VInt 3]} : gmap string pyval) !! "edgekey"))
    ∧ node_data G' = node_data demo_graph
    ∧ node_incidence G' = node_incidence demo_graph.
Proof.
  apply (add_edge_empty_members_registers (NSet ∅) {["w" := VInt 3]}
           demo_graph ∅).
  by vm_compute.
Defined.

(** ** Raw members and edge keys *)

(** Whatever [remove_edge] does for the identity [k], returning or raising
    midway, it leaves the entries of every other identity alone. *)
Lemma incidence_remove_other k x G o G' :
  incidence_remove k x G = (o, G') →
  node_data G' = node_data G ∧ edge_data G' = edge_data G
  ∧ ∀ n k', k' ≠ k →
      (node_incidence G' !! n ≫= (.!! k')) = (node_incidence G !! n ≫= (.!! k')).
Proof.
  unfold incidence_remove. intros Hrun.
  destruct (node_incidence G !! x) as [s|] eqn:Hs; [|by simplify_eq].
  destruct (s !! k) as [l|] eqn:Hk; simplify_eq; [|done]. simpl.
  split; [done|]. split; [done|]. intros n k' Hne.
  destruct (decide (n = x)) as [->|Hn].
  - rewrite lookup_insert_eq, Hs. simpl. by rewrite lookup_delete_ne.
  - by rewrite lookup_insert_ne.
Qed.

Lemma incidence_remove_loop_other k l G o G' :
  for_each (incidence_remove k) l G = (o, G') →
  node_data G' = node_data G ∧ edge_data G' = edge_data G
  ∧ ∀ n k', k' ≠ k →
      (node_incidence G' !! n ≫= (.!! k')) = (node_incidence G !! n ≫= (.!! k')).
Proof.
  revert G. induction l as [|x l IH]; intros G Hrun; simpl in Hrun.
  - by simplify_eq.
  - destruct (incidence_remove k x G) as [[[]|ex] G1] eqn:Hb.
    + apply incidence_remove_other in Hb as (Hn1 & He1 & Hi1).
      apply IH in Hrun as (Hn2 & He2 & Hi2).
      split; [congruence|]. split; [congruence|].
      intros n k' Hne. by rewrite Hi2, Hi1.
    + simplify_eq. by apply incidence_remove_other in Hb.
Qed.

Lemma remove_edge_other nbunch G o G' k' :
  remove_edge nbunch G = (o, G') → k' ≠ resolve nbunch →
  edge_data G' !! k' = edge_data G !! k'
  ∧ ∀ n, (node_incidence G' !! n ≫= (.!! k'))
         = (node_incidence G !! n ≫= (.!! k')).
Proof.
  unfold remove_edge. intros Hrun Hne.
  destruct (edge_data G !! resolve nbunch) as [p|] eqn:Hk; [|by simplify_eq].
  apply incidence_remove_loop_other in Hrun as (_ & He & Hi). simpl in *.
  split; [by rewrite He, lookup_delete_ne|]. intros n. by apply Hi.
Qed.

(** C10.  [has_edge] and [remove_edge] resolve raw members [m] to the
    identity with edge key [None].  So for an edge registered under members
    [m] and a key that is not [None]: [has_edge(m)] answers for the identity
    [(m, None)] only; [remove_edge(m)], however it ends, leaves that edge
    registered and in every incidence set it was in; the only arguments that
    resolve to it are pre-built edges with the same members and key, for
    which [has_edge] is true. *)
Theorem raw_members_resolve_to_key_None G m key p :
  edge_data G !! (m, Some key) = Some p →
  resolve (Raw m) = (m, None)
  ∧ has_edge (Raw m) G = bool_decide (is_Some (edge_data G !! (m, None)))
  ∧ (edge_data G !! (m, None) = None → has_edge (Raw m) G = false)
  ∧ (∀ o G', remove_edge (Raw m) G = (o, G') →
       edge_data G' !! (m, Some key) = Some p
       ∧ ∀ n, (node_incidence G' !! n ≫= (.!! (m, Some key)))
              = (node_incidence G !! n ≫= (.!! (m, Some key))))
  ∧ (∀ nbunch, resolve nbunch = (m, Some key) ↔
       ∃ e, nbunch = Obj e ∧ _nodes e = m ∧ _edgekey e = Some key)
  ∧ (∀ e, _nodes e = m → _edgekey e = Some key → has_edge (Obj e) G = true).
Proof.
  intros Hp. split; [done|]. split; [done|]. split; [|split; [|split]].
  - intros Hnone. unfold has_edge; simpl. rewrite Hnone.
    apply bool_decide_eq_false_2. by intros [? ?].
  - intros o G' Hrun.
    destruct (remove_edge_other (Raw m) G o G' (m, Some key) Hrun)
      as [He Hi]; [done|].
    by rewrite He.
  - intros [nb|e]; simpl.
    + split; [congruence|]. by intros (e & ? & _).
    + unfold Edge_hash_key. split.
      * intros ?; simplify_eq. by exists e.
      * intros (e' & ? & ? & ?); simplify_eq. congruence.
  - intros e Hm Hkey. unfold has_edge, resolve, Edge_hash_key.
    rewrite Hm, Hkey, Hp. by apply bool_decide_eq_true_2.
Qed.

Lemma raw_members_resolve_to_key_None_witness :
  resolve (Raw (NTuple [1; 2]%Z)) = (NTuple [1; 2]%Z, None)
  ∧ has_edge (Raw (NTuple [1; 2]%Z)) keyed_graph
    = bool_decide (is_Some (edge_data keyed_graph !! (NTuple [1; 2]%Z, None)))
  ∧ (edge_data keyed_graph !! (NTuple [1; 2]%Z, None) = None →
     has_edge (Raw (NTuple [1; 2]%Z)) keyed_graph = false)
  ∧ (∀ o G', remove_edge (Raw (NTuple [1; 2]%Z)) keyed_graph = (o, G') →
       edge_data G' !! (NTuple [1; 2]%Z, Some (VStr "a"))
       = Some (1%positive, 1%positive)
       ∧ ∀ n, (node_incidence G' !! n
                 ≫= (.!! (NTuple [1; 2]%Z, Some (VStr "a"))))
              = (node_incidence keyed_graph !! n
                   ≫= (.!! (NTuple [1; 2]%Z, Some (VStr "a")))))
  ∧ (∀ nbunch, resolve nbunch = (NTuple [1; 2]%Z, Some (VStr "a")) ↔
       ∃ e, nbunch = Obj e ∧ _nodes e = NTuple [1; 2]%Z
            ∧ _edgekey e = Some (VStr "a"))
  ∧ (∀ e, _nodes e = NTuple [1; 2]%Z → _edgekey e = Some (VStr "a") →
          has_edge (Obj e) keyed_graph = true).
Proof.
  apply (raw_members_resolve_to_key_None keyed_graph (NTuple [1; 2]%Z)
           (VStr "a") (1%positive, 1%positive)).
  by vm_compute.
Defined.

(** ** Parallel edges *)

Lemma add_edge_raw_summary m kwds G h :
  dom (node_data G) = dom (node_incidence G) →
  ∃ r G' h', add_edge (Raw m) kwds G h = (Returned r, G', h')
    ∧ dom (node_data G') = dom (node_incidence G')
    ∧ is_Some (edge_data G' !! (m, kwds !! "edgekey"))
    ∧ (∀ k, k ≠ (m, kwds !! "edgekey") →
            edge_data G' !! k = edge_data G !! k)
    ∧ (edge_data G !! (m, kwds !! "edgekey") = None →
       size_ G' = S (size_ G))
    ∧ (is_Some (edge_data G !! (m, kwds !! "edgekey")) → G' = G).
Proof.
  intros Hd.
  destruct (add_edge_spec (Raw m) kwds G h Hd) as (e & kw & h1 & Hres & Hcase).
  assert (Edge_hash_key e = (m, kwds !! "edgekey")) as Hkey.
  { unfold add_edge_resolve, Edge_init, heap_alloc in Hres. by simplify_eq. }
  rewrite Hkey in Hcase.
  destruct Hcase as [(kd & d & Hk & ->)|(Hk & G' & -> & He & Hd' & _ & _)].
  - do 3 eexists. split; [done|]. split; [done|]. split; [by eauto|].
    split; [done|]. split; [congruence|done].
  - do 3 eexists. split; [done|]. split; [done|]. rewrite He.
    split; [by rewrite lookup_insert_eq|].
    split; [by intros k Hne; rewrite lookup_insert_ne|].
    split.
    + intros _. unfold size_. rewrite He. by apply map_size_insert_None.
    + rewrite Hk. by intros [? ?].
Qed.

(** C9.  Two [add_edge] calls with the same member collection and two
    different edge keys leave two distinct edges registered side by side:
    both calls return, both identities are keys of the edge-attribute map,
    which [size] counts (two more than before when neither was there); the
    pairs that [__hash__] hashes differ and [__eq__] tells the edges apart. *)
Theorem parallel_edges_coexist G h m a b kwa kwb :
  dom (node_data G) = dom (node_incidence G) →
  kwa !! "edgekey" = Some a → kwb !! "edgekey" = Some b → a ≠ b →
  ∃ r1 G1 h1 r2 G2 h2,
    add_edge (Raw m) kwa G h = (Returned r1, G1, h1)
    ∧ add_edge (Raw m) kwb G1 h1 = (Returned r2, G2, h2)
    ∧ has_edge (Obj (mkEdge m (Some a) 1)) G2 = true
    ∧ has_edge (Obj (mkEdge m (Some b) 1)) G2 = true
    ∧ (m, Some a) ≠ (m, Some b)
    ∧ (∀ ea eb, Edge_hash_key ea = (m, Some a) →
                Edge_hash_key eb = (m, Some b) →
                Edge_eq ea eb = false ∧ Edge_hash_key ea ≠ Edge_hash_key eb)
    ∧ (edge_data G !! (m, Some a) = None →
       edge_data G !! (m, Some b) = None →
       size_ G2 = S (S (size_ G))).
Proof.
  intros Hd Ha Hb Hab.
  destruct (add_edge_raw_summary m kwa G h Hd)
    as (r1 & G1 & h1 & Hrun1 & Hd1 & Hin1 & Hoth1 & Hsz1 & _).
  destruct (add_edge_raw_summary m kwb G1 h1 Hd1)
    as (r2 & G2 & h2 & Hrun2 & Hd2 & Hin2 & Hoth2 & Hsz2 & _).
  rewrite Ha in *. rewrite Hb in *.
  assert ((m, Some a) ≠ (m, Some b)) as Hne by congruence.
  exists r1, G1, h1, r2, G2, h2.
  split; [done|]. split; [done|].
  split; [|split; [|split; [done|split]]].
  - unfold has_edge, resolve, Edge_hash_key; simpl.
    apply bool_decide_eq_true_2. by rewrite Hoth2.
  - unfold has_edge, resolve, Edge_hash_key; simpl.
    by apply bool_decide_eq_true_2.
  - intros ea eb Hea Heb. split; [|congruence].
    unfold Edge_eq. unfold Edge_hash_key in *. simplify_eq.
    apply andb_false_iff. right. apply bool_decide_eq_false_2. congruence.
  - intros Hna Hnb. rewrite Hsz2, Hsz1; [done..|].
    rewrite Hoth1; [done|congruence].
Qed.

Lemma parallel_edges_coexist_witness :
  ∃ r1 G1 h1 r2 G2 h2,
    add_edge (Raw (NTuple [1; 2]%Z)) {["edgekey" := VStr "a"]}
      HyperGraph_init ∅ = (Returned r1, G1, h1)
    ∧ add_edge (Raw (NTuple [1; 2]%Z)) {["edgekey" := VStr "b"]} G1 h1
      = (Returned r2, G2, h2)
    ∧ has_edge (Obj (mkEdge (NTuple [1; 2]%Z) (Some (VStr "a")) 1)) G2 = true
    ∧ has_edge (Obj (mkEdge (NTuple [1; 2]%Z) (Some (VStr "b")) 1)) G2 = true
    ∧ (NTuple [1; 2]%Z, Some (VStr "a")) ≠ (NTuple [1; 2]%Z, Some (VStr "b"))
    ∧ (∀ ea eb, Edge_hash_key ea = (NTuple [1; 2]%Z, Some (VStr "a")) →
                Edge_hash_key eb = (NTuple [1; 2]%Z, Some (VStr "b")) →
                Edge_eq ea eb = false ∧ Edge_hash_key ea ≠ Edge_hash_key eb)
    ∧ (edge_data HyperGraph_init !! (NTuple [1; 2]%Z, Some (VStr "a")) = None →
       edge_data HyperGraph_init !! (NTuple [1; 2]%Z, Some (VStr "b")) = None →
       size_ G2 = S (S (size_ HyperGraph_init))).
Proof.
  apply (parallel_edges_coexist HyperGraph_init ∅ (NTuple [1; 2]%Z)
           (VStr "a") (VStr "b")
           {["edgekey" := VStr "a"]} {["edgekey" := VStr "b"]}).
  - reflexivity.
  - reflexivity.
  - reflexivity.
  - discriminate.
Defined.

(** The discriminator scenario of the specification: on a fresh graph the
    two calls leave [size() == 2]. *)
Example parallel_edges_size_two :
  let st := session
    [ Call_add_edge (Raw (NTuple [1; 2]%Z)) {["edgekey" := VStr "a"]};
      Call_add_edge (Raw (NTuple [1; 2]%Z)) {["edgekey" := VStr "b"]} ] in
  st.1 = Returned () ∧ size_ st.2.1 = 2.
Proof. by vm_compute. Qed.

(** ** [remove_edge], again *)

Lemma incidence_remove_loop_returns k l G :
  NoDup l → (∀ n, n ∈ l → incident G n k) →
  ∃ G', for_each (incidence_remove k) l G = (Returned (), G').
Proof.
  revert G. induction l as [|x l IH]; intros G Hnd Hinc; simpl; [by eauto|].
  apply NoDup_cons in Hnd as [Hx Hnd].
  destruct (incidence_remove k x G) as [[[]|ex] G1] eqn:Hb.
  - apply incidence_remove_spec in Hb as (_ & _ & _ & _ & Hi).
    apply IH; [done|]. intros n Hn. apply Hi. split.
    + apply Hinc. by right.
    + intros [-> _]. done.
  - apply incidence_remove_raises in Hb as [_ Hno]. destruct Hno.
    apply Hinc. by left.
Qed.

(** On a well-formed graph [remove_edge] returns exactly when the edge is
    registered and lists no member twice. *)
Lemma remove_edge_returns_iff nbunch G :
  wf G →
  (∃ G', remove_edge nbunch G = (Returned (), G')) ↔
  is_Some (edge_data G !! resolve nbunch) ∧ NoDup (members (resolve nbunch)).
Proof.
  intros [H1 H2 H3]. split.
  - intros [G' Hrun]. split; [by destruct (remove_edge_returned _ _ _ Hrun)|].
    unfold remove_edge in Hrun.
    destruct (edge_data G !! resolve nbunch); [|done].
    by apply incidence_remove_loop_NoDup in Hrun.
  - intros [[p Hp] Hnd]. unfold remove_edge. rewrite Hp.
    apply incidence_remove_loop_returns; [done|].
    intros n Hn. destruct (H2 (resolve nbunch) n) as (s & Hs & Hk); [by eauto|done|].
    by exists s.
Qed.

Lemma remove_edge_then_has_edge nbunch G G' :
  remove_edge nbunch G = (Returned (), G') → has_edge nbunch G' = false.
Proof.
  intros (_ & _ & He & _)%remove_edge_returned. unfold has_edge.
  rewrite He, lookup_delete_eq. apply bool_decide_eq_false_2. by intros [? ?].
Qed.

(** C7 (the code departs from the claim).  After [add_edge((1, 1, 2))] the
    edge is registered, yet [remove_edge((1, 1, 2))] raises the [KeyError] of
    a missing edge: the second visit of node 1 finds the edge already gone
    from its incidence set.  The edge has left the edge-attribute map by
    then, and stays in the incidence set of node 2. *)
Theorem remove_edge_repeated_member_raises :
  let k := (NTuple [1; 1; 2]%Z, None) in
  let r := remove_edge (Raw (NTuple [1; 1; 2]%Z)) repeated_member_graph in
  reachable repeated_member_graph
  ∧ has_edge (Raw (NTuple [1; 1; 2]%Z)) repeated_member_graph = true
  ∧ r.1 = Raised (KeyError (KEdge k))
  ∧ has_edge (Raw (NTuple [1; 1; 2]%Z)) r.2 = false
  ∧ (node_incidence r.2 !! 2%Z ≫= (.!! k)) = Some 1%positive.
Proof.
  split; [apply session_reachable; by vm_compute|].
  split; [by vm_compute|]. split; [by vm_compute|].
  split; by vm_compute.
Qed.

(** ** Length of a [NeighborMap] *)

Lemma length_filter_ne_NoDup (l : list Z) n :
  NoDup l → n ∈ l → length (filter (λ x, x ≠ n) l) = length l - 1.
Proof.
  induction l as [|x l IH]; intros Hnd Hn; [by apply elem_of_nil in Hn|].
  apply NoDup_cons in Hnd as [Hx Hnd]. rewrite filter_cons.
  destruct (decide (x ≠ n)) as [Hne|Heq]; simpl.
  - apply elem_of_cons in Hn as [->|Hn]; [done|].
    rewrite IH; [|done..]. destruct l; [by apply elem_of_nil in Hn|simpl; lia].
  - assert (x = n) as -> by (by destruct (decide (x = n))).
    rewrite Nat.sub_0_r. f_equal.
    clear IH Hn Hnd Heq. induction l as [|y l IH]; [done|].
    rewrite filter_cons. apply not_elem_of_cons in Hx as [Hy Hx].
    destruct (decide (y ≠ n)); [|done]. by rewrite IH.
Qed.

Lemma neighbors_of_edge_length node e :
  NoDup (Edge_iter e) → node ∈ Edge_iter e →
  length (neighbors_of_edge node e)
  = if decide (1 < Edge_len e) then Edge_len e - 1 else 1.
Proof.
  intros Hnd Hn. unfold neighbors_of_edge. rewrite Edge_len_iter.
  assert (0 < length (Edge_iter e)).
  { destruct (Edge_iter e); [by apply elem_of_nil in Hn|simpl; lia]. }
  destruct (decide (length (Edge_iter e) = 1)) as [->|Hne].
  - by destruct (decide (1 < 1)); [lia|].
  - destruct (decide (1 < length (Edge_iter e))); [|lia].
    by apply length_filter_ne_NoDup.
Qed.

Lemma length_bind_sum {A B} (f : A → list B) (g : A → nat) (l : list A) :
  (∀ x, x ∈ l → length (f x) = g x) →
  length (l ≫= f) = sum_list (g <$> l).
Proof.
  induction l as [|x l IH]; intros H; [done|].
  rewrite bind_cons, length_app, fmap_cons; simpl.
  rewrite H; [|by left]. rewrite IH; [done|]. intros y Hy. apply H. by right.
Qed.

(** When no ordered edge incident to [n] lists a member twice, the length of
    the view is the number of neighbors the iteration produces. *)
Lemma NeighborMap_len_counts_neighbors G n s :
  wf G → node_incidence G !! n = Some s →
  (∀ l key, is_Some (s !! (NTuple l, key)) → NoDup l) →
  ∃ items, generator_list (mkGenerator n) G = Returned items
    ∧ NeighborMap_iter (HyperGraph_getitem n G) G = Returned items
    ∧ NeighborMap_len (HyperGraph_getitem n G) G = Returned (length items).
Proof.
  intros [_ _ H3] Hs Hnd.
  unfold generator_list, neighbors_body, NeighborMap_iter, NeighborMap_len;
    simpl.
  rewrite Hs. eexists. split; [done|]. split; [done|]. f_equal. symmetry.
  apply length_bind_sum. intros e He. apply elem_of_set_elements in He.
  apply neighbors_of_edge_length.
  - destruct e as [[t|l] key d]; unfold Edge_iter; simpl.
    + apply NoDup_elements.
    + apply (Hnd l key). unfold Edge_hash_key in He. simpl in He. eauto.
  - apply (H3 n (Edge_hash_key e)). exists s. eauto.
Qed.

(** C4 (the code departs from the claim).  After [add_edge((1, 1, 2))] the
    view of node 1 has length 2, the edge counting for [3 - 1], while
    iterating [neighbors(1)] produces the single item 2: both occurrences of
    node 1 are skipped. *)
Theorem NeighborMap_len_repeated_member :
  reachable repeated_member_graph
  ∧ (1%Z ∈ nodes repeated_member_graph)
  ∧ NeighborMap_len (HyperGraph_getitem 1 repeated_member_graph)
      repeated_member_graph = Returned 2
  ∧ NeighborMap_iter (HyperGraph_getitem 1 repeated_member_graph)
      repeated_member_graph = Returned [2%Z]
  ∧ ∃ g, neighbors 1 repeated_member_graph = Returned g
         ∧ generator_list g repeated_member_graph = Returned [2%Z].
Proof.
  split; [apply session_reachable; by vm_compute|].
  split; [apply (bool_decide_unpack _); by vm_compute|].
  split; [by vm_compute|]. split; [by vm_compute|].
  eexists. split; [reflexivity|]. by vm_compute.
Qed.

(** ** [remove_node], again *)

(** C1 (the code departs from the claim).  First, with edges [(1, 2)]
    carrying [a = 1] and [(1, 2, 3)] carrying [b = 2], [remove_node(3)]
    returns and the reduced edge collides with [(1, 2)]: the attributes of
    [(1, 2)] become [b = 2] alone, where the merge rule of [add_edge] gives
    [a = 1, b = 2].  Second, with the single edge [(1, 2, 2)],
    [remove_node(1)] raises [KeyError] at the second removal from the
    incidence set of node 2, leaving node 1 out of the node-attribute map
    but still a key of the incidence map. *)
Theorem remove_node_overwrites_and_raises :
  let k := (NTuple [1; 2]%Z, None) in
  let st := (session merge_script).2 in
  let r := remove_node 3 st.1 st.2 in
  let a := add_edge (Raw (NTuple [1; 2]%Z)) {["b" := VInt 2]} st.1 st.2 in
  let st' := (session repeated_other_script).2 in
  let r' := remove_node 1 st'.1 st'.2 in
  (reachable st.1 ∧ 3%Z ∈ nodes st.1
   ∧ edge_attributes st.1 st.2 k = Some {["a" := VInt 1]}
   ∧ r.1 = Returned ()
   ∧ edge_attributes r.2.1 r.2.2 k = Some {["b" := VInt 2]}
   ∧ edge_attributes a.1.2 a.2 k = Some {["a" := VInt 1; "b" := VInt 2]})
  ∧ (reachable st'.1 ∧ 1%Z ∈ nodes st'.1
     ∧ r'.1 = Raised (KeyError (KEdge (NTuple [1; 2; 2]%Z, None)))
     ∧ (1%Z ∉ dom (node_data r'.2.1))
     ∧ 1%Z ∈ dom (node_incidence r'.2.1)).
Proof.
  split.
  - split; [apply session_reachable; by vm_compute|].
    repeat split; try (apply (bool_decide_unpack _)); by vm_compute.
  - split; [apply session_reachable; by vm_compute|].
    repeat split; try (apply (bool_decide_unpack _)); by vm_compute.
Qed.

(** ** [copy] *)

(** C6 (the code departs from the claim).  The copy of a graph with one
    edge [(1, 2)] carrying [w = 1] registers that edge with the very
    [EdgeData] object of the original; setting [w = 5] through the copy
    changes the attributes the original reports. *)
Theorem copy_shares_edge_attributes :
  let k := (NTuple [1; 2]%Z, None) in
  let st := (session weighted_script).2 in
  let c := copy st.1 st.2 in
  let m := add_edge (Raw (NTuple [1; 2]%Z)) {["w" := VInt 5]}
             weighted_copy c.2 in
  reachable st.1
  ∧ c.1 = Returned weighted_copy
  ∧ edge_data weighted_copy !! k = edge_data st.1 !! k
  ∧ edge_attributes st.1 c.2 k = Some {["w" := VInt 1]}
  ∧ m.1.1 = Returned RFalse
  ∧ edge_attributes m.1.2 m.2 k = Some {["w" := VInt 5]}
  ∧ edge_attributes st.1 m.2 k = Some {["w" := VInt 5]}.
Proof.
  split; [apply session_reachable; by vm_compute|].
  repeat split; try (apply (bool_decide_unpack _)); by vm_compute.
Qed.

(** * Further properties *)

(** ** [EdgeData] as a mapping *)

Lemma EdgeData_len_items d : EdgeData_len d = size (EdgeData_items d).
Proof.
  unfold EdgeData_len, EdgeData_items. destruct (_data d); [done|].
  by rewrite map_size_empty.
Qed.

Lemma EdgeData_items_setitem key value d :
  EdgeData_items (EdgeData_setitem key value d)
  = <[key:=value]> (EdgeData_items d).
Proof. unfold EdgeData_items, EdgeData_setitem. by destruct (_data d). Qed.

Lemma EdgeData_getitem_items key d :
  EdgeData_getitem key d
  = match EdgeData_items d !! key with
    | Some v => Returned v
    | None => Raised (KeyError (KAttr key))
    end.
Proof.
  unfold EdgeData_getitem, EdgeData_items. destruct (_data d); [done|].
  by rewrite lookup_empty.
Qed.

Lemma EdgeData_items_update other d :
  EdgeData_items (EdgeData_update other d) = other ∪ EdgeData_items d.
Proof.
  unfold EdgeData_update.
  apply (map_fold_weak_ind
           (λ r m, EdgeData_items r = m ∪ EdgeData_items d)).
  - by rewrite (left_id_L ∅ (∪)).
  - intros k v m r Hk IH.
    by rewrite EdgeData_items_setitem, IH, insert_union_l.
Qed.

(** X1.  Writing then reading an [EdgeData]: after [d[key] = value],
    [d[key]] returns [value] and every other key reads as before, whether
    the mapping had been allocated or not; the length grows by one exactly
    when the key is new. *)
Theorem EdgeData_setitem_getitem key value d key' :
  EdgeData_getitem key' (EdgeData_setitem key value d)
  = (if decide (key' = key) then Returned value else EdgeData_getitem key' d)
  ∧ EdgeData_len (EdgeData_setitem key value d)
    = if decide (is_Some (EdgeData_items d !! key)) then EdgeData_len d
      else S (EdgeData_len d).
Proof.
  split.
  - rewrite !EdgeData_getitem_items, EdgeData_items_setitem.
    destruct (decide (key' = key)) as [->|Hne].
    + by rewrite lookup_insert_eq.
    + by rewrite lookup_insert_ne.
  - rewrite !EdgeData_len_items, EdgeData_items_setitem.
    destruct (decide (is_Some (EdgeData_items d !! key))) as [[v Hv]|Hno].
    + by erewrite map_size_insert_Some.
    + apply map_size_insert_None. by apply eq_None_not_Some.
Qed.

(** X2.  [update] merges: after [d.update(other)] the mapping read through
    the keys and [__getitem__] is [other] laid over the old contents, the
    keys of [other] taking its values; its length is the size of that union,
    and updating with an empty dictionary leaves the object as it is, also
    in its unallocated state. *)
Theorem EdgeData_update_merges other d key :
  EdgeData_items (EdgeData_update other d) = other ∪ EdgeData_items d
  ∧ EdgeData_getitem key (EdgeData_update other d)
    = match other !! key with
      | Some v => Returned v
      | None => EdgeData_getitem key d
      end
  ∧ EdgeData_len (EdgeData_update other d) = size (other ∪ EdgeData_items d)
  ∧ EdgeData_update ∅ d = d.
Proof.
  split; [apply EdgeData_items_update|]. split; [|split].
  - rewrite !EdgeData_getitem_items, EdgeData_items_update.
    destruct (other !! key) as [v|] eqn:Hk.
    + by erewrite lookup_union_Some_l.
    + by rewrite lookup_union_r.
  - by rewrite EdgeData_len_items, EdgeData_items_update.
  - unfold EdgeData_update. by rewrite map_fold_empty.
Qed.

Lemma EdgeData_iter_length d : length (EdgeData_iter d) = EdgeData_len d.
Proof.
  unfold EdgeData_iter, EdgeData_len. destruct (_data d) as [m|]; [|done].
  by rewrite length_fmap, length_map_to_list.
Qed.

(** X3.  Deleting from an [EdgeData]: [del d[key]] raises the [KeyError] of
    the key and leaves the object as it is when the key is missing, also when
    nothing was ever written; otherwise it returns, the key then reads as
    missing, the other keys read as before and the length drops by one.  The
    keys listed are always as many as the length, so an object emptied this
    way lists no keys, like one never written. *)
Theorem EdgeData_delitem_spec key d key' :
  match EdgeData_items d !! key with
  | None => EdgeData_delitem key d = (Raised (KeyError (KAttr key)), d)
  | Some _ =>
      ∃ d', EdgeData_delitem key d = (Returned (), d')
        ∧ EdgeData_items d' = delete key (EdgeData_items d)
        ∧ EdgeData_getitem key' d'
          = (if decide (key' = key) then Raised (KeyError (KAttr key'))
             else EdgeData_getitem key' d)
        ∧ S (EdgeData_len d') = EdgeData_len d
        ∧ length (EdgeData_iter d') = EdgeData_len d'
  end.
Proof.
  destruct (EdgeData_items d !! key) as [v|] eqn:Hk.
  - assert (∃ m, _data d = Some m ∧ m !! key = Some v) as (m & Hd & Hm).
    { unfold EdgeData_items in Hk. destruct (_data d) as [m|]; [by eauto|].
      by rewrite lookup_empty in Hk. }
    unfold EdgeData_delitem. rewrite Hd, Hm. eexists. split; [done|].
    assert (EdgeData_items d = m) as Hi by (unfold EdgeData_items; by rewrite Hd).
    split; [by rewrite Hi|]. split; [|split].
    + rewrite !EdgeData_getitem_items, Hi. unfold EdgeData_items; simpl.
      destruct (decide (key' = key)) as [->|Hne].
      * by rewrite lookup_delete_eq.
      * by rewrite lookup_delete_ne.
    + rewrite !EdgeData_len_items, Hi. unfold EdgeData_items; simpl.
      erewrite map_size_delete_Some; [|done].
      assert (size m ≠ 0); [|lia].
      intros Hz%map_size_empty_iff. by rewrite Hz, lookup_empty in Hm.
    + apply EdgeData_iter_length.
  - unfold EdgeData_delitem, EdgeData_items in *.
    destruct (_data d) as [m|]; [|done]. by rewrite Hk.
Qed.

(** ** Identity of edges *)

(** X4.  [__eq__], [__ne__] and [__hash__] agree: two edges compare equal
    exactly when the pairs that [__hash__] hashes are the same, whatever
    their attached data; [!=] is the negation; equality is reflexive,
    symmetric and transitive. *)
Theorem Edge_eq_hash_consistent e1 e2 e3 :
  (Edge_eq e1 e2 = true ↔ Edge_hash_key e1 = Edge_hash_key e2)
  ∧ Edge_ne e1 e2 = negb (Edge_eq e1 e2)
  ∧ Edge_eq e1 e1 = true
  ∧ Edge_eq e1 e2 = Edge_eq e2 e1
  ∧ implb (Edge_eq e1 e2 && Edge_eq e2 e3) (Edge_eq e1 e3) = true
  ∧ Edge_eq e1 (mkEdge (_nodes e1) (_edgekey e1) (data e2)) = true.
Proof.
  assert (∀ a b, Edge_eq a b = true ↔ Edge_hash_key a = Edge_hash_key b) as H.
  { intros a b. unfold Edge_eq, Edge_hash_key.
    rewrite andb_true_iff, !bool_decide_eq_true. split.
    - by intros [-> ->].
    - intros ?; by simplify_eq. }
  split; [apply H|]. split; [done|]. split; [by apply H|].
  split; [|split].
  - destruct (Edge_eq e1 e2) eqn:H12, (Edge_eq e2 e1) eqn:H21; try done.
    + apply H in H12. symmetry in H12. apply H in H12. congruence.
    + apply H in H21. symmetry in H21. apply H in H21. congruence.
  - destruct (Edge_eq e1 e2) eqn:H12, (Edge_eq e2 e3) eqn:H23; try done.
    simpl. apply H in H12, H23. assert (Edge_eq e1 e3 = true) as ->; [|done].
    apply H. congruence.
  - by apply H.
Qed.

(** ** [add_node], further *)

(** X5.  [add_node] never raises.  It returns [True] exactly when the node
    was absent; afterwards the node is present, with the given attributes
    laid over those it had; an absent node starts with an empty incidence
    set; no other node, no incidence set of another node and no edge
    changes.  Calling it again with the same arguments returns [False] and
    changes nothing. *)
Theorem add_node_effect node kwds G :
  ∃ G', add_node node kwds G = (Returned (bool_decide (node ∉ nodes G)), G')
    ∧ nodes G' = {[node]} ∪ nodes G
    ∧ node_data G' !! node
      = Some (kwds ∪ default ∅ (node_data G !! node))
    ∧ node_incidence G' !! node
      = (if bool_decide (node ∈ nodes G) then node_incidence G !! node
         else Some ∅)
    ∧ delete node (node_data G') = delete node (node_data G)
    ∧ delete node (node_incidence G') = delete node (node_incidence G)
    ∧ edge_data G' = edge_data G
    ∧ add_node node kwds G' = (Returned false, G').
Proof.
  unfold add_node, nodes.
  destruct (node_data G !! node) as [d|] eqn:Hd; eexists; simpl.
  - assert (node ∈ dom (node_data G)) as Hin by (by apply elem_of_dom).
    rewrite bool_decide_eq_false_2; [|by intros Hn]. split; [done|]; simpl.
    split; [rewrite dom_insert_L; set_solver|].
    rewrite lookup_insert_eq. split; [done|].
    rewrite bool_decide_eq_true_2; [|done]. split; [done|].
    split; [by rewrite delete_insert_eq|]. split; [done|]. split; [done|].
    do 2 f_equal. rewrite insert_insert_eq. f_equal.
    by rewrite (assoc_L (∪)), (idemp_L (∪)).
  - assert (node ∉ dom (node_data G)) as Hin by (by apply not_elem_of_dom).
    rewrite bool_decide_eq_true_2; [|done]. split; [done|]; simpl.
    split; [by rewrite dom_insert_L|].
    rewrite !lookup_insert_eq. split; [by rewrite (right_id_L ∅ (∪))|].
    rewrite bool_decide_eq_false_2; [|done]. split; [done|].
    rewrite !delete_insert_eq. split; [done|]. split; [done|]. split; [done|].
    do 2 f_equal. rewrite insert_insert_eq. f_equal. by rewrite (idemp_L (∪)).
Qed.

(** ** [add_edge], further *)

Lemma EdgeData_items_init kwds : EdgeData_items (EdgeData_init kwds) = kwds.
Proof.
  unfold EdgeData_init, EdgeData_items.
  destruct (decide (size kwds = 0)) as [Hz|]; [|done]. simpl.
  symmetry. by apply map_size_empty_iff.
Qed.

Lemma heap_items_update l l' kwds (h : gmap positive EdgeData) :
  heap_items l (heap_update l' kwds h)
  = if decide (l = l') then
      match h !! l with
      | Some d => kwds ∪ EdgeData_items d
      | None => ∅
      end
    else heap_items l h.
Proof.
  unfold heap_items, heap_update. destruct (decide (l = l')) as [->|Hne].
  - rewrite lookup_alter_eq. destruct (h !! l'); simpl; [|done].
    apply EdgeData_items_update.
  - by rewrite lookup_alter_ne.
Qed.

Lemma add_edge_resolve_key nbunch kwds (h : gmap positive EdgeData) :
  Edge_hash_key (add_edge_resolve nbunch kwds h).1.1 = add_edge_key nbunch kwds
  ∧ (add_edge_resolve nbunch kwds h).1.2 = add_edge_attrs nbunch kwds
  ∧ heap_items (data (add_edge_resolve nbunch kwds h).1.1)
      (add_edge_resolve nbunch kwds h).2
    = add_edge_new_attrs nbunch kwds h
  ∧ ∀ l, is_Some (h !! l) →
         is_Some ((add_edge_resolve nbunch kwds h).2 !! l)
         ∧ (data (add_edge_resolve nbunch kwds h).1.1 ≠ l →
            heap_items l (add_edge_resolve nbunch kwds h).2 = heap_items l h).
Proof.
  destruct nbunch as [nb|e]; simpl.
  - split; [done|]. split; [done|]. split.
    + unfold heap_items. rewrite lookup_insert_eq. apply EdgeData_items_init.
    + intros l [d Hl].
      assert (fresh (dom h) ≠ l) as Hne.
      { intros <-. apply (is_fresh (dom h)). by apply elem_of_dom_2 in Hl. }
      rewrite lookup_insert_ne; [|done]. split; [by eauto|]. intros _.
      unfold heap_items. by rewrite lookup_insert_ne.
  - split; [done|]. split; [done|]. split.
    + rewrite heap_items_update. by destruct (decide (data e = data e)).
    + intros l [d Hl]. split.
      * unfold heap_update. destruct (decide (l = data e)) as [->|Hne].
        -- rewrite lookup_alter_eq, Hl. by eauto.
        -- rewrite lookup_alter_ne; [by eauto|done].
      * intros Hne. rewrite heap_items_update.
        by destruct (decide (l = data e)).
Qed.

Lemma add_edge_body_node_data (e : Edge) x G o G1 :
  add_edge_body e x G = (o, G1) →
  node_data G1
  = match node_data G !! x with
    | Some _ => node_data G
    | None => <[x := ∅]> (node_data G)
    end.
Proof.
  unfold add_edge_body. intros Hrun.
  destruct (node_data G !! x); [|by simplify_eq].
  destruct (node_incidence G !! x); by simplify_eq.
Qed.

Lemma add_edge_loop_node_data (e : Edge) l G G' n :
  for_each (add_edge_body e) l G = (Returned (), G') →
  node_data G' !! n
  = match node_data G !! n with
    | Some d => Some d
    | None => if bool_decide (n ∈ l) then Some ∅ else None
    end.
Proof.
  revert G. induction l as [|x l IH]; intros G Hrun; simpl in Hrun.
  - simplify_eq. destruct (node_data G' !! n); [done|].
    rewrite bool_decide_eq_false_2; [done|]. apply not_elem_of_nil.
  - destruct (add_edge_body e x G) as [[[]|ex] G1] eqn:Hb; [|done].
    apply add_edge_body_node_data in Hb. rewrite (IH _ Hrun), Hb.
    destruct (node_data G !! x) as [dx|] eqn:Hx.
    + destruct (node_data G !! n) as [d|] eqn:Hn; [done|].
      assert (n ≠ x) by congruence.
      destruct (decide (n ∈ l)).
      * rewrite !bool_decide_eq_true_2; [done|by right|done].
      * rewrite !bool_decide_eq_false_2; [done| |done].
        by intros [?|?]%elem_of_cons.
    + destruct (decide (n = x)) as [->|Hne].
      * rewrite lookup_insert_eq, Hx.
        rewrite bool_decide_eq_true_2; [done|by left].
      * rewrite lookup_insert_ne; [|done].
        destruct (node_data G !! n); [done|].
        destruct (decide (n ∈ l)).
        -- rewrite !bool_decide_eq_true_2; [done|by right|done].
        -- rewrite !bool_decide_eq_false_2; [done| |done].
           by intros [?|?]%elem_of_cons.
Qed.

(** X6.  Adding an edge that is not yet registered, on a graph whose node
    and incidence dictionaries have the same keys: [add_edge] returns the
    new edge; the edge is then found by [has_edge] and [size] has grown by
    one; every member is a node, the nodes there before keep their
    attributes and the members that were absent start with none; the edge is
    in the incidence set of exactly its members, the other incidence entries
    being unchanged; its attributes are those given (laid over the contents
    of the [data] of a pre-built edge). *)
Theorem add_edge_new_edge nbunch kwds G h :
  dom (node_data G) = dom (node_incidence G) →
  edge_data G !! add_edge_key nbunch kwds = None →
  ∃ e G' h', add_edge nbunch kwds G h = (Returned (REdge e), G', h')
    ∧ Edge_hash_key e = add_edge_key nbunch kwds
    ∧ has_edge (Obj e) G' = true
    ∧ size_ G' = S (size_ G)
    ∧ nodes G' = list_to_set (Edge_iter e) ∪ nodes G
    ∧ (∀ n, node_data G' !! n
            = match node_data G !! n with
              | Some d => Some d
              | None => if bool_decide (n ∈ Edge_iter e) then Some ∅ else None
              end)
    ∧ (∀ n k, incident G' n k ↔
              incident G n k ∨ (n ∈ Edge_iter e ∧ k = Edge_hash_key e))
    ∧ (∀ k, k ≠ Edge_hash_key e → edge_data G' !! k = edge_data G !! k)
    ∧ edge_attributes G' h' (Edge_hash_key e)
      = Some (add_edge_new_attrs nbunch kwds h).
Proof.
  intros Hd Hnew.
  destruct (add_edge_resolve_key nbunch kwds h) as (Hkey & _ & Hattrs & _).
  destruct (add_edge_spec nbunch kwds G h Hd)
    as (e & kw & h1 & Hres & [(kd & d & Hk & _)|(_ & G' & Hrun & He & Hd' & Hn & Hi)]).
  { rewrite Hres in Hkey. simpl in Hkey. congruence. }
  rewrite Hres in Hkey, Hattrs. simpl in Hkey, Hattrs.
  exists e, G', h1. split; [done|]. split; [done|].
  split; [|split; [|split; [done|split; [|split; [done|split]]]]].
  - unfold has_edge, resolve. rewrite He, lookup_insert_eq.
    by apply bool_decide_eq_true_2.
  - unfold size_. rewrite He. apply map_size_insert_None. by rewrite Hkey.
  - intros n. unfold add_edge in Hrun. rewrite Hres in Hrun.
    rewrite Hkey, Hnew in Hrun.
    destruct (for_each _ _ _) as [[[]|ex] G2] eqn:Hloop; [|done].
    simplify_eq. by rewrite (add_edge_loop_node_data _ _ _ _ n Hloop).
  - intros k Hne. by rewrite He, lookup_insert_ne.
  - unfold edge_attributes. rewrite He, lookup_insert_eq. simpl.
    by rewrite Hattrs.
Qed.

Lemma add_edge_new_edge_witness :
  ∃ e G' h',
    add_edge (Raw (NSet {[1; 7]}%Z)) {["w" := VInt 3]} demo_graph ∅
    = (Returned (REdge e), G', h')
    ∧ Edge_hash_key e = add_edge_key (Raw (NSet {[1; 7]}%Z)) {["w" := VInt 3]}
    ∧ has_edge (Obj e) G' = true
    ∧ size_ G' = S (size_ demo_graph)
    ∧ nodes G' = list_to_set (Edge_iter e) ∪ nodes demo_graph
    ∧ (∀ n, node_data G' !! n
            = match node_data demo_graph !! n with
              | Some d => Some d
              | None => if bool_decide (n ∈ Edge_iter e) then Some ∅ else None
              end)
    ∧ (∀ n k, incident G' n k ↔
              incident demo_graph n k
              ∨ (n ∈ Edge_iter e ∧ k = Edge_hash_key e))
    ∧ (∀ k, k ≠ Edge_hash_key e →
            edge_data G' !! k = edge_data demo_graph !! k)
    ∧ edge_attributes G' h' (Edge_hash_key e)
      = Some (add_edge_new_attrs (Raw (NSet {[1; 7]}%Z)) {["w" := VInt 3]} ∅).
Proof.
  apply (add_edge_new_edge (Raw (NSet {[1; 7]}%Z)) {["w" := VInt 3]}
           demo_graph ∅).
  - apply (bool_decide_unpack _). by vm_compute.
  - by vm_compute.
Defined.

(** X7.  Adding an edge that is already registered, with its attribute
    object allocated: [add_edge] returns [False] and leaves the graph as it
    is; the attributes of the registered edge become those given (without
    [edgekey] for raw members) laid over the ones it had. *)
Theorem add_edge_existing_merges nbunch kwds G h kd d :
  edge_data G !! add_edge_key nbunch kwds = Some (kd, d) →
  is_Some (h !! d) →
  ∃ h', add_edge nbunch kwds G h = (Returned RFalse, G, h')
    ∧ edge_attributes G h' (add_edge_key nbunch kwds)
      = Some (add_edge_attrs nbunch kwds ∪ heap_items d h).
Proof.
  intros Hk Hd.
  destruct (add_edge_resolve_key nbunch kwds h) as (Hkey & Hkw & _ & Hh).
  destruct (Hh d Hd) as [[d1 Hd1] Hother].
  unfold add_edge.
  destruct (add_edge_resolve nbunch kwds h) as [[e kw] h1] eqn:Hres.
  simpl in *. rewrite Hkey, Hk. eexists. split; [done|].
  unfold edge_attributes. rewrite Hk; simpl. f_equal.
  rewrite heap_items_update. destruct (decide (d = d)); [|done].
  rewrite Hd1, Hkw.
  destruct (decide (data e = d)) as [Heq|Hne].
  - destruct nbunch as [nb|e']; simpl in Hres.
    + simplify_eq. destruct Hd as [d0 Hd0].
      exfalso. apply (is_fresh (dom h)). by apply elem_of_dom_2 in Hd0.
    + simplify_eq. simpl in *. destruct Hd as [d0 Hd0].
      unfold heap_update in Hd1. rewrite lookup_alter_eq, Hd0 in Hd1.
      simpl in Hd1. simplify_eq. unfold heap_items. rewrite Hd0.
      by rewrite EdgeData_items_update, (assoc_L (∪)), (idemp_L (∪)).
  - f_equal. rewrite <- (Hother Hne). unfold heap_items. by rewrite Hd1.
Qed.

Lemma add_edge_existing_merges_witness :
  ∃ h', add_edge (Raw (NTuple [1; 2]%Z)) {["w" := VInt 5; "x" := VInt 0]}
          (session weighted_script).2.1 (session weighted_script).2.2
        = (Returned RFalse, (session weighted_script).2.1, h')
    ∧ edge_attributes (session weighted_script).2.1 h'
        (add_edge_key (Raw (NTuple [1; 2]%Z))
           {["w" := VInt 5; "x" := VInt 0]})
      = Some (add_edge_attrs (Raw (NTuple [1; 2]%Z))
                {["w" := VInt 5; "x" := VInt 0]}
              ∪ heap_items 1 (session weighted_script).2.2).
Proof.
  apply (add_edge_existing_merges (Raw (NTuple [1; 2]%Z))
           {["w" := VInt 5; "x" := VInt 0]}
           (session weighted_script).2.1 (session weighted_script).2.2
           1%positive 1%positive).
  - by vm_compute.
  - apply (bool_decide_unpack _). by vm_compute.
Defined.

(** ** [remove_edge], further *)

Lemma incidence_remove_loop_raises k l G ex G' :
  for_each (incidence_remove k) l G = (Raised ex, G') →
  (∀ n, n ∈ l → is_Some (node_incidence G !! n)) →
  ex = KeyError (KEdge k).
Proof.
  revert G. induction l as [|x l IH]; intros G Hrun Hdom; simpl in Hrun;
    [done|].
  destruct (incidence_remove k x G) as [[[]|ex'] G1] eqn:Hb.
  - apply incidence_remove_spec in Hb as (_ & _ & _ & Hd & _).
    apply (IH G1 Hrun). intros n Hn. apply elem_of_dom. rewrite Hd.
    apply elem_of_dom, Hdom. by right.
  - simplify_eq. unfold incidence_remove in Hb.
    destruct (Hdom x) as [s Hs]; [by left|]. rewrite Hs in Hb.
    destruct (s !! k); by simplify_eq.
Qed.

(** X8.  How [remove_edge] can end on a graph that satisfies the
    invariants: it returns exactly when the edge is registered and lists no
    member twice; whenever it raises, the exception is the [KeyError] of the
    edge; and when the edge is not registered the graph is left as it was. *)
Theorem remove_edge_outcome nbunch G :
  wf G →
  ((∃ G', remove_edge nbunch G = (Returned (), G')) ↔
   is_Some (edge_data G !! resolve nbunch)
   ∧ NoDup (members (resolve nbunch)))
  ∧ (∀ ex G', remove_edge nbunch G = (Raised ex, G') →
              ex = KeyError (KEdge (resolve nbunch))
              ∧ (edge_data G !! resolve nbunch = None → G' = G)).
Proof.
  intros HG. split; [by apply remove_edge_returns_iff|].
  intros ex G' Hrun. unfold remove_edge in Hrun.
  destruct (edge_data G !! resolve nbunch) as [p|] eqn:Hk.
  - split; [|done]. apply incidence_remove_loop_raises in Hrun; [done|].
    intros n Hn; simpl.
    destruct (edges_incident G HG (resolve nbunch) n) as (s & Hs & _);
      by eauto.
  - by simplify_eq.
Qed.

Lemma remove_edge_outcome_witness :
  ((∃ G', remove_edge (Raw (NTuple [4; 3]%Z)) (session merge_script).2.1
          = (Returned (), G')) ↔
   is_Some (edge_data (session merge_script).2.1
              !! resolve (Raw (NTuple [4; 3]%Z)))
   ∧ NoDup (members (resolve (Raw (NTuple [4; 3]%Z)))))
  ∧ (∀ ex G', remove_edge (Raw (NTuple [4; 3]%Z)) (session merge_script).2.1
              = (Raised ex, G') →
              ex = KeyError (KEdge (resolve (Raw (NTuple [4; 3]%Z))))
              ∧ (edge_data (session merge_script).2.1
                   !! resolve (Raw (NTuple [4; 3]%Z)) = None →
                 G' = (session merge_script).2.1)).
Proof.
  apply (remove_edge_outcome (Raw (NTuple [4; 3]%Z))
           (session merge_script).2.1).
  apply reachable_wf, session_reachable. by vm_compute.
Defined.

(** X9.  What a [remove_edge] that returns has done, on a graph that
    satisfies the invariants: the invariants hold again; the edge is no
    longer found, [size] has dropped by one and no incidence set contains
    it; the nodes and their attributes are as before, none is removed; every
    other edge is registered and incident as before. *)
Theorem remove_edge_effect nbunch G G' :
  wf G → remove_edge nbunch G = (Returned (), G') →
  wf G'
  ∧ has_edge nbunch G' = false
  ∧ S (size_ G') = size_ G
  ∧ node_data G' = node_data G
  ∧ (∀ n, ¬ incident G' n (resolve nbunch))
  ∧ (∀ k, k ≠ resolve nbunch →
          edge_data G' !! k = edge_data G !! k
          ∧ ∀ n, incident G' n k ↔ incident G n k).
Proof.
  intros HG Hrun. split; [by eapply remove_edge_wf|].
  split; [by eapply remove_edge_then_has_edge|].
  destruct (remove_edge_returned _ _ _ Hrun) as ([p Hp] & Hn & He & _ & Hi).
  split; [|split; [done|split]].
  - unfold size_. rewrite He. erewrite map_size_delete_Some; [|done].
    assert (size (edge_data G) ≠ 0); [|lia].
    intros Hz%map_size_empty_iff. by rewrite Hz, lookup_empty in Hp.
  - intros n [Hold Hno]%Hi. apply Hno. split; [|done].
    by apply (incidence_sound G HG).
  - intros k Hne. split; [by rewrite He, lookup_delete_ne|].
    intros n. rewrite Hi. split; [by intros [? _]|].
    intros ?. split; [done|]. by intros [_ ?].
Qed.

Lemma remove_edge_effect_witness :
  let G := (session merge_script).2.1 in
  let G' := (remove_edge (Raw (NTuple [1; 2]%Z)) G).2 in
  wf G'
  ∧ has_edge (Raw (NTuple [1; 2]%Z)) G' = false
  ∧ S (size_ G') = size_ G
  ∧ node_data G' = node_data G
  ∧ (∀ n, ¬ incident G' n (resolve (Raw (NTuple [1; 2]%Z))))
  ∧ (∀ k, k ≠ resolve (Raw (NTuple [1; 2]%Z)) →
          edge_data G' !! k = edge_data G !! k
          ∧ ∀ n, incident G' n k ↔ incident G n k).
Proof.
  apply (remove_edge_effect (Raw (NTuple [1; 2]%Z))
           (session merge_script).2.1).
  - apply reachable_wf, session_reachable. by vm_compute.
  - apply outcome_pair_returned. by vm_compute.
Defined.

(** X10.  Adding a new edge and removing it again, on a graph that satisfies
    the invariants and for members listed once each: both calls return, and
    the edge dictionary and every incidence relation are as they were before
    the two calls; the nodes that [add_edge] created stay. *)
Theorem add_edge_then_remove_edge nbunch kwds G h :
  wf G →
  edge_data G !! add_edge_key nbunch kwds = None →
  NoDup (members (add_edge_key nbunch kwds)) →
  ∃ e G1 h1 G2,
    add_edge nbunch kwds G h = (Returned (REdge e), G1, h1)
    ∧ remove_edge (Obj e) G1 = (Returned (), G2)
    ∧ edge_data G2 = edge_data G
    ∧ (∀ n k, incident G2 n k ↔ incident G n k)
    ∧ nodes G2 = list_to_set (members (add_edge_key nbunch kwds)) ∪ nodes G
    ∧ wf G2.
Proof.
  intros HG Hnew Hnd.
  destruct (add_edge_resolve_key nbunch kwds h) as (Hkey & _).
  destruct (add_edge_spec nbunch kwds G h (keys_agree G HG))
    as (e & kw & h1 & Hres & [(kd & d & Hk & _)|(_ & G1 & Hrun & He & Hd' & Hn & Hi)]).
  { rewrite Hres in Hkey. simpl in Hkey. congruence. }
  rewrite Hres in Hkey. simpl in Hkey.
  assert (wf G1) as HG1 by (by eapply add_edge_wf).
  destruct (proj2 (remove_edge_returns_iff (Obj e) G1 HG1)) as [G2 Hrem].
  { simpl. rewrite He, lookup_insert_eq, Hkey. by eauto. }
  exists e, G1, h1, G2. split; [done|]. split; [done|].
  destruct (remove_edge_returned _ _ _ Hrem) as (_ & Hn2 & He2 & _ & Hi2).
  simpl in *. split; [|split; [|split]].
  - rewrite He2, He, delete_insert_eq. apply delete_id. by rewrite Hkey.
  - intros n k. rewrite Hi2, Hi. split.
    + intros [[?|[? ?]] Hno]; [done|]. destruct Hno. done.
    + intros Hold. split; [by left|]. intros [_ ->].
      apply (incidence_sound G HG) in Hold as [[? Hk] _]. congruence.
  - unfold nodes. rewrite Hn2, Hn. by rewrite <- Hkey.
  - by eapply remove_edge_wf.
Qed.

Lemma add_edge_then_remove_edge_witness :
  ∃ e G1 h1 G2,
    add_edge (Raw (NTuple [3; 9]%Z)) ∅ demo_graph ∅
    = (Returned (REdge e), G1, h1)
    ∧ remove_edge (Obj e) G1 = (Returned (), G2)
    ∧ edge_data G2 = edge_data demo_graph
    ∧ (∀ n k, incident G2 n k ↔ incident demo_graph n k)
    ∧ nodes G2
      = list_to_set (members (add_edge_key (Raw (NTuple [3; 9]%Z)) ∅))
        ∪ nodes demo_graph
    ∧ wf G2.
Proof.
  apply (add_edge_then_remove_edge (Raw (NTuple [3; 9]%Z)) ∅ demo_graph ∅).
  - apply reachable_wf, session_reachable. by vm_compute.
  - by vm_compute.
  - apply (bool_decide_unpack _). by vm_compute.
Defined.

(** ** [remove_node], further *)

Lemma set_elements_keys (s : gmap (nbunch * option pyval) positive) :
  Edge_hash_key <$> set_elements s = (map_to_list s).*1.
Proof.
  unfold set_elements. rewrite <- list_fmap_compose.
  apply list_fmap_ext. by intros _ [[nb key] l] _.
Qed.

(** The edges registered while [remove_node] walks the edges incident to
    [node] in [G], with [todo] still to visit. *)
Lemma remove_node_loop_edges node G todo st st' :
  wf G →
  NoDup (Edge_hash_key <$> todo) →
  (∀ k, k ∈ (Edge_hash_key <$> todo) → incident G node k) →
  (∀ x, is_Some (edge_data st.1 !! x) ↔
        (is_Some (edge_data G !! x)
         ∧ (incident G node x → x ∈ (Edge_hash_key <$> todo)))
        ∨ (∃ k, incident G node k ∧ (k ∉ (Edge_hash_key <$> todo))
                ∧ 1 < length (members (reduced node k))
                ∧ x = reduced node k)) →
  for_each (remove_node_body node) todo st = (Returned (), st') →
  ∀ x, is_Some (edge_data st'.1 !! x) ↔
       (is_Some (edge_data G !! x) ∧ ¬ incident G node x)
       ∨ (∃ k, incident G node k
               ∧ 1 < length (members (reduced node k))
               ∧ x = reduced node k).
Proof.
  intros HG. revert st.
  induction todo as [|e todo IH]; intros st Hnd Hin Hed Hrun; simpl in Hrun.
  - simplify_eq. intros x. rewrite Hed. split.
    + intros [[Hx Hno]|(k & Hk & _ & Hins & ->)]; [left|right; by eauto].
      split; [done|]. intros Hi. by apply Hno, elem_of_nil in Hi.
    + intros [[Hx Hno]|(k & Hk & Hins & ->)]; [by left|right].
      exists k. split; [done|]. split; [apply not_elem_of_nil|done].
  - destruct (remove_node_body node e st) as [[[]|ex] [G1 h1]] eqn:Hb;
      [|done].
    destruct st as [G0 h0].
    apply remove_node_body_spec in Hb as (_ & _ & _ & He & _).
    rewrite fmap_cons in Hnd, Hin, Hed. apply NoDup_cons in Hnd as [Hk Hnd].
    set (k := Edge_hash_key e) in *.
    assert (node ∈ members k) as Hmem.
    { apply (incidence_sound G HG), Hin. by left. }
    assert (∀ k1, node ∉ members (reduced node k1)) as Hred.
    { intros k1 H. apply elem_of_members_reduced in H. by destruct H. }
    apply (IH (G1, h1)); [done|by intros k1 ?; apply Hin; right| |done].
    intros x; simpl in *. rewrite He, Hed. split.
    + intros [[Hne [[Hx Hi]|(k1 & Hk1 & Hno & Hins & ->)]]|[Hins ->]].
      * left. split; [done|]. intros [->|?]%Hi%elem_of_cons; done.
      * right. exists k1. split; [done|]. split; [|done].
        intros ?. apply Hno. by right.
      * right. exists k. split; [apply Hin; by left|]. done.
    + intros [[Hx Hi]|(k1 & Hk1 & Hno & Hins & ->)].
      * left. split.
        -- intros ->. apply Hk, Hi, Hin. by left.
        -- left. split; [done|]. intros ?. right. by apply Hi.
      * destruct (decide (k1 = k)) as [->|Hne]; [by right|].
        left. split; [intros Heq; apply (Hred k1); by rewrite Heq|].
        right. exists k1. split; [done|]. split; [|done].
        by intros [?|?]%elem_of_cons.
Qed.

(** X11.  The edges after a [remove_node] that returns, on a graph that
    satisfies the invariants: the node is gone from the nodes and the
    invariants hold again; the edges registered are exactly those registered
    before that do not have the node as a member, together with, for each
    edge registered before that has it, the edge over the remaining members
    with the same kind and edge key, provided more than one member
    remains. *)
Theorem remove_node_edges node G h G' h' :
  wf G → remove_node node G h = (Returned (), (G', h')) →
  wf G'
  ∧ nodes G' = nodes G ∖ {[node]}
  ∧ ∀ x, is_Some (edge_data G' !! x) ↔
       (is_Some (edge_data G !! x) ∧ node ∉ members x)
       ∨ (∃ k, is_Some (edge_data G !! k) ∧ node ∈ members k
               ∧ 1 < length (members (reduced node k))
               ∧ x = reduced node k).
Proof.
  intros HG Hrun.
  destruct (remove_node_returned _ _ _ _ _ HG Hrun) as (HG' & Hn & _).
  split; [done|]. split; [done|].
  assert (∀ k, incident G node k ↔
               is_Some (edge_data G !! k) ∧ node ∈ members k) as Hinc.
  { intros k. split; [apply (incidence_sound G HG)|].
    intros [? ?]. by apply (edges_incident G HG). }
  unfold remove_node in Hrun.
  destruct (node_data G !! node) as [d|] eqn:Hnd; [|done]. simpl in Hrun.
  destruct (node_incidence G !! node) as [s|] eqn:Hs; [|done].
  destruct (for_each _ _ _) as [[[]|ex] [G2 h2]] eqn:Hloop; [|done].
  simplify_eq. simpl.
  assert (∀ k, k ∈ (Edge_hash_key <$> set_elements s) ↔ incident G node k)
    as Hsnap.
  { intros k. rewrite elem_of_set_elements_keys. unfold incident.
    rewrite Hs. naive_solver. }
  assert (NoDup (Edge_hash_key <$> set_elements s)) as Hnodup.
  { rewrite set_elements_keys. apply NoDup_fst_map_to_list. }
  assert (∀ x, is_Some (edge_data G2 !! x) ↔
               (is_Some (edge_data G !! x) ∧ ¬ incident G node x)
               ∨ (∃ k, incident G node k
                       ∧ 1 < length (members (reduced node k))
                       ∧ x = reduced node k)) as Hfinal.
  { eapply (remove_node_loop_edges node G (set_elements s) _ (G2, h'));
      [exact HG|exact Hnodup| | |exact Hloop].
    - intros k Hk. by apply Hsnap.
    - intros y; simpl. split.
      + intros Hy. left. split; [done|]. apply Hsnap.
      + intros [[? _]|(k & Hk & Hno & _)]; [done|].
        destruct Hno. by apply Hsnap. }
  intros x. rewrite Hfinal. split.
  - intros [[Hx Hno]|(k & [Hk Hm]%Hinc & Hins & ->)].
    + left. split; [done|]. intros Hm. apply Hno, Hinc. done.
    + right. by exists k.
  - intros [[Hx Hno]|(k & Hk & Hm & Hins & ->)].
    + left. split; [done|]. intros [_ ?]%Hinc. done.
    + right. exists k. split; [by apply Hinc|done].
Qed.

Lemma remove_node_edges_witness :
  let st := (session merge_script).2 in
  let G' := (remove_node 3 st.1 st.2).2.1 in
  wf G'
  ∧ nodes G' = nodes st.1 ∖ {[3%Z]}
  ∧ ∀ x, is_Some (edge_data G' !! x) ↔
       (is_Some (edge_data st.1 !! x) ∧ 3%Z ∉ members x)
       ∨ (∃ k, is_Some (edge_data st.1 !! k) ∧ 3%Z ∈ members k
               ∧ 1 < length (members (reduced 3 k))
               ∧ x = reduced 3 k).
Proof.
  apply (remove_node_edges 3 (session merge_script).2.1
           (session merge_script).2.2 _
           (remove_node 3 (session merge_script).2.1
              (session merge_script).2.2).2.2).
  - apply reachable_wf, session_reachable. by vm_compute.
  - apply (bool_decide_unpack _). by vm_compute.
Defined.

(** ** Neighbors *)

Lemma Edge_iter_members e : Edge_iter e = members (Edge_hash_key e).
Proof. done. Qed.

Lemma elem_of_neighbors_of_edge x node e :
  x ∈ neighbors_of_edge node e ↔
  (length (Edge_iter e) = 1 ∧ x = node)
  ∨ (length (Edge_iter e) ≠ 1 ∧ x ∈ Edge_iter e ∧ x ≠ node).
Proof.
  unfold neighbors_of_edge. rewrite Edge_len_iter.
  destruct (decide (length (Edge_iter e) = 1)) as [H1|H1].
  - rewrite list_elem_of_singleton. naive_solver.
  - rewrite list_elem_of_filter. naive_solver.
Qed.

Lemma elem_of_neighbors_body G n s x :
  node_incidence G !! n = Some s →
  x ∈ (set_elements s ≫= neighbors_of_edge n) ↔
  ∃ k, incident G n k
       ∧ ((length (members k) = 1 ∧ x = n)
          ∨ (length (members k) ≠ 1 ∧ x ∈ members k ∧ x ≠ n)).
Proof.
  intros Hs. rewrite list_elem_of_bind. split.
  - intros (e & Hx%elem_of_neighbors_of_edge & He%elem_of_set_elements).
    exists (Edge_hash_key e). split; [exists s; by eauto|].
    by rewrite <- Edge_iter_members.
  - intros (k & (s' & Hs' & [l Hl]) & Hx). simplify_eq.
    exists (mkEdge k.1 k.2 l). destruct k as [nb key]. split.
    + by apply elem_of_neighbors_of_edge.
    + by apply elem_of_set_elements.
Qed.

(** X12.  The neighbors of a node of a graph that satisfies the invariants:
    the call returns a generator, and consuming it returns a list; [x] is in
    it exactly when some edge incident to the node either has a single member
    and [x] is the node itself, or has another number of members and [x] is
    a member other than the node.  Every neighbor is a node of the graph, and
    the node is in turn among the neighbors of each of its neighbors. *)
Theorem neighbors_of_node G n :
  wf G → n ∈ nodes G →
  ∃ g items, neighbors n G = Returned g
    ∧ generator_list g G = Returned items
    ∧ (∀ x, x ∈ items ↔
            ∃ k, incident G n k
                 ∧ ((length (members k) = 1 ∧ x = n)
                    ∨ (length (members k) ≠ 1 ∧ x ∈ members k ∧ x ≠ n)))
    ∧ (∀ x, x ∈ items → x ∈ nodes G)
    ∧ (∀ x, x ∈ items →
            ∃ items', generator_list (mkGenerator x) G = Returned items'
                      ∧ n ∈ items').
Proof.
  intros HG Hn.
  assert (∀ y, y ∈ nodes G → ∃ s, node_incidence G !! y = Some s) as Hdom.
  { intros y Hy. apply elem_of_dom. by rewrite <- (keys_agree G HG). }
  destruct (Hdom n Hn) as [s Hs].
  exists (mkGenerator n), (set_elements s ≫= neighbors_of_edge n).
  split; [done|].
  split; [unfold generator_list, neighbors_body; simpl; by rewrite Hs|].
  split; [intros x; by apply elem_of_neighbors_body|].
  assert (∀ x, x ∈ (set_elements s ≫= neighbors_of_edge n) →
               x = n ∨ ∃ k, incident G n k ∧ length (members k) ≠ 1
                            ∧ x ∈ members k ∧ x ≠ n) as Hcases.
  { intros x (k & Hk & [[_ ->]|(? & ? & ?)])%(elem_of_neighbors_body G n s);
      [by left|right; by eauto|done]. }
  assert (∀ x k, incident G n k → x ∈ members k → incident G x k) as Hinc.
  { intros x k [Hk _]%(incidence_sound G HG) Hx.
    by apply (edges_incident G HG). }
  split.
  - intros x [->|(k & Hk & _ & Hx & _)]%Hcases; [done|].
    destruct (Hinc x k Hk Hx) as (s' & Hs' & _).
    unfold nodes. rewrite (keys_agree G HG). by apply elem_of_dom_2 in Hs'.
  - intros x Hx. destruct (Hcases x Hx) as [->|(k & Hk & Hlen & Hxk & Hne)].
    + exists (set_elements s ≫= neighbors_of_edge n). split; [|done].
      unfold generator_list, neighbors_body; simpl. by rewrite Hs.
    + destruct (Hinc x k Hk Hxk) as (s' & Hs' & Hsk).
      exists (set_elements s' ≫= neighbors_of_edge x). split.
      * unfold generator_list, neighbors_body; simpl. by rewrite Hs'.
      * apply (elem_of_neighbors_body G x s' n Hs'). exists k.
        split; [by exists s'|]. right. split; [done|]. split; [|done].
        by apply (incidence_sound G HG) in Hk as [_ ?].
Qed.

Lemma neighbors_of_node_witness :
  ∃ g items, neighbors 1 (session merge_script).2.1 = Returned g
    ∧ generator_list g (session merge_script).2.1 = Returned items
    ∧ (∀ x, x ∈ items ↔
            ∃ k, incident (session merge_script).2.1 1 k
                 ∧ ((length (members k) = 1 ∧ x = 1%Z)
                    ∨ (length (members k) ≠ 1 ∧ x ∈ members k ∧ x ≠ 1%Z)))
    ∧ (∀ x, x ∈ items → x ∈ nodes (session merge_script).2.1)
    ∧ (∀ x, x ∈ items →
            ∃ items',
              generator_list (mkGenerator x) (session merge_script).2.1
              = Returned items'
              ∧ 1%Z ∈ items').
Proof.
  apply (neighbors_of_node (session merge_script).2.1 1).
  - apply reachable_wf, session_reachable. by vm_compute.
  - apply (bool_decide_unpack _). by vm_compute.
Defined.

(** X13.  When no edge incident to a node of a graph that satisfies the
    invariants lists a member twice, the length of the [NeighborMap] of the
    node is the number of items that iterating it, or [neighbors], produces. *)
Theorem NeighborMap_len_is_number_of_neighbors G n s :
  wf G → node_incidence G !! n = Some s →
  Forall (λ e, NoDup (Edge_iter e)) (set_elements s) →
  ∃ items, generator_list (mkGenerator n) G = Returned items
    ∧ NeighborMap_iter (HyperGraph_getitem n G) G = Returned items
    ∧ NeighborMap_len (HyperGraph_getitem n G) G = Returned (length items).
Proof.
  intros HG Hs Hall. apply (NeighborMap_len_counts_neighbors G n s HG Hs).
  intros l key [p Hp]. rewrite Forall_forall in Hall.
  apply (Hall (mkEdge (NTuple l) key p)). by apply elem_of_set_elements.
Qed.

Lemma NeighborMap_len_is_number_of_neighbors_witness :
  let G := (session merge_script).2.1 in
  ∃ items, generator_list (mkGenerator 1) G = Returned items
    ∧ NeighborMap_iter (HyperGraph_getitem 1 G) G = Returned items
    ∧ NeighborMap_len (HyperGraph_getitem 1 G) G = Returned (length items).
Proof.
  apply (NeighborMap_len_is_number_of_neighbors (session merge_script).2.1 1
           (default ∅ (node_incidence (session merge_script).2.1 !! 1%Z))).
  - apply reachable_wf, session_reachable. by vm_compute.
  - apply (bool_decide_unpack _). by vm_compute.
  - apply (bool_decide_unpack _). by vm_compute.
Defined.

(** ** Views *)

Lemma Edge_contains_iter node e :
  Edge_contains node e = true ↔ node ∈ Edge_iter e.
Proof.
  unfold Edge_contains, Edge_iter. destruct (_nodes e) as [s|l]; simpl.
  - by rewrite bool_decide_eq_true, elem_of_elements.
  - by rewrite bool_decide_eq_true.
Qed.

(** X14.  Indexing the [NeighborMap] of a node [n] of a graph that
    satisfies the invariants by [m]: it returns a non-empty collection, made
    of exactly the edges incident to [n] that have [m] as a member, or it
    raises the [KeyError] of [m] when no incident edge has [m].  These are
    the edges incident to [m] that have [n] as a member: the two directions
    see the same edges. *)
Theorem NeighborMap_getitem_spec G n m :
  wf G → n ∈ nodes G →
  match NeighborMap_getitem m (HyperGraph_getitem n G) G with
  | Returned l =>
      l ≠ []
      ∧ ∀ k, k ∈ ((λ p : Edge * positive, Edge_hash_key p.1) <$> l) ↔
             incident G n k ∧ m ∈ members k
  | Raised ex =>
      ex = KeyError (KNode m) ∧ ∀ k, incident G n k → m ∉ members k
  end
  ∧ ∀ k, incident G n k ∧ m ∈ members k ↔ incident G m k ∧ n ∈ members k.
Proof.
  intros HG Hn. split.
  - assert (∃ s, node_incidence G !! n = Some s) as [s Hs].
    { apply elem_of_dom. by rewrite <- (keys_agree G HG). }
    unfold NeighborMap_getitem, HyperGraph_getitem; simpl. rewrite Hs.
    set (ei := filter _ _).
    assert (∀ e, e ∈ ei ↔ e ∈ set_elements s ∧ m ∈ Edge_iter e) as Hei.
    { intros e. unfold ei. rewrite list_elem_of_filter, Edge_contains_iter.
      tauto. }
    destruct (decide (length ei = 0)) as [Hz|Hnz].
    + split; [done|]. intros k (s' & Hs' & [l Hl]) Hm. simplify_eq.
      apply nil_length_inv in Hz.
      assert (mkEdge k.1 k.2 l ∈ ei) as Hin.
      { apply Hei. destruct k as [nb key]. split; [|done].
        by apply elem_of_set_elements. }
      rewrite Hz in Hin. by apply elem_of_nil in Hin.
    + split; [by destruct ei|].
      intros k. rewrite <- list_fmap_compose, list_elem_of_fmap. split.
      * intros (e & -> & [He Hm]%Hei). simpl. split; [|done].
        apply elem_of_set_elements in He. exists s. by eauto.
      * intros [(s' & Hs' & [l Hl]) Hm]. simplify_eq.
        exists (mkEdge k.1 k.2 l). destruct k as [nb key].
        split; [done|]. apply Hei. split; [|done].
        by apply elem_of_set_elements.
  - intros k. split; intros [Hi Hm];
      destruct (incidence_sound G HG _ _ Hi) as [Hk Hn'];
      (split; [by apply (edges_incident G HG)|done]).
Qed.

Lemma NeighborMap_getitem_spec_witness :
  let G := (session merge_script).2.1 in
  match NeighborMap_getitem 3 (HyperGraph_getitem 1 G) G with
  | Returned l =>
      l ≠ []
      ∧ ∀ k, k ∈ ((λ p : Edge * positive, Edge_hash_key p.1) <$> l) ↔
             incident G 1 k ∧ 3%Z ∈ members k
  | Raised ex =>
      ex = KeyError (KNode 3) ∧ ∀ k, incident G 1 k → 3%Z ∉ members k
  end
  ∧ ∀ k, incident G 1 k ∧ 3%Z ∈ members k ↔ incident G 3 k ∧ 1%Z ∈ members k.
Proof.
  apply (NeighborMap_getitem_spec (session merge_script).2.1 1 3).
  - apply reachable_wf, session_reachable. by vm_compute.
  - apply (bool_decide_unpack _). by vm_compute.
Defined.

(** X15.  The [NeighborAtlas] of a graph that satisfies the invariants:
    iterating it visits each node of the graph once, paired with the
    [NeighborMap] of that node; membership is membership among the nodes;
    indexing returns the [NeighborMap] of a node and raises the [KeyError] of
    anything else. *)
Theorem NeighborAtlas_lists_nodes G :
  wf G →
  NoDup (NeighborAtlas_iter G).*1
  ∧ (∀ n v, (n, v) ∈ NeighborAtlas_iter G ↔
            n ∈ nodes G ∧ v = HyperGraph_getitem n G)
  ∧ (∀ n, NeighborAtlas_contains n G = bool_decide (n ∈ nodes G))
  ∧ (∀ n, NeighborAtlas_getitem n G
          = if bool_decide (n ∈ nodes G)
            then Returned (HyperGraph_getitem n G)
            else Raised (KeyError (KNode n))).
Proof.
  intros HG.
  assert (∀ n, NeighborAtlas_contains n G = bool_decide (n ∈ nodes G)) as Hc.
  { intros n. unfold NeighborAtlas_contains, nodes.
    rewrite (keys_agree G HG). apply bool_decide_ext. by rewrite elem_of_dom. }
  split; [|split; [|split; [done|]]].
  - unfold NeighborAtlas_iter. rewrite <- list_fmap_compose.
    erewrite (list_fmap_ext _ fst); [apply NoDup_fst_map_to_list|done].
  - intros n v. unfold NeighborAtlas_iter, nodes, HyperGraph_getitem.
    rewrite (keys_agree G HG), list_elem_of_fmap. split.
    + intros ([n' s] & ? & Hin%elem_of_map_to_list). simplify_eq. simpl.
      split; [by apply elem_of_dom_2 in Hin|done].
    + intros [[s Hs]%elem_of_dom ->]. exists (n, s). split; [done|].
      by apply elem_of_map_to_list.
  - intros n. unfold NeighborAtlas_getitem. by rewrite Hc.
Qed.

Lemma NeighborAtlas_lists_nodes_witness :
  NoDup (NeighborAtlas_iter demo_graph).*1
  ∧ (∀ n v, (n, v) ∈ NeighborAtlas_iter demo_graph ↔
            n ∈ nodes demo_graph ∧ v = HyperGraph_getitem n demo_graph)
  ∧ (∀ n, NeighborAtlas_contains n demo_graph
          = bool_decide (n ∈ nodes demo_graph))
  ∧ (∀ n, NeighborAtlas_getitem n demo_graph
          = if bool_decide (n ∈ nodes demo_graph)
            then Returned (HyperGraph_getitem n demo_graph)
            else Raised (KeyError (KNode n))).
Proof.
  apply (NeighborAtlas_lists_nodes demo_graph).
  apply reachable_wf, session_reachable. by vm_compute.
Defined.

(** ** [copy], further *)

Lemma copy_node_loop l G0 G1 :
  NoDup l.*1 → (∀ n, n ∈ l.*1 → node_data G0 !! n = None) →
  for_each copy_node l G0 = (Returned (), G1) →
  node_data G1 = list_to_map l ∪ node_data G0
  ∧ node_incidence G1
    = ((λ _, ∅) <$> (list_to_map l : gmap Z (gmap string pyval)))
      ∪ node_incidence G0
  ∧ edge_data G1 = edge_data G0.
Proof.
  revert G0. induction l as [|[n d] l IH]; intros G0 Hnd Hnew Hrun;
    simpl in Hrun.
  - simplify_eq. rewrite list_to_map_nil, fmap_empty.
    by rewrite !(left_id_L ∅ (∪)).
  - rewrite fmap_cons in Hnd, Hnew. apply NoDup_cons in Hnd as [Hn Hnd].
    destruct (copy_node (n, d) G0) as [[[]|ex] G0'] eqn:Hb; [|done].
    unfold copy_node in Hb. destruct (star_call_ok _ _); [|done].
    unfold add_node in Hb. simpl in Hb. rewrite (Hnew n) in Hb; [|by left].
    simplify_eq.
    apply IH in Hrun as (H1 & H2 & H3); [|done|]; last first.
    { intros m Hm; simpl. rewrite lookup_insert_ne; [|by intros ->].
      apply Hnew. by right. }
    simpl in *. rewrite H1, H2, H3, ?list_to_map_cons, fmap_insert.
    pose proof (not_elem_of_list_to_map_1 (M:=gmap Z) l n Hn) as Hl.
    split; [|split; [|done]].
    + by rewrite <- insert_union_l, <- insert_union_r.
    + rewrite <- insert_union_l, <- insert_union_r; [done|].
      by rewrite lookup_fmap, Hl.
Qed.

Lemma add_edge_node_data nbunch kwds G h r G' h' n :
  add_edge nbunch kwds G h = (Returned r, G', h') →
  node_data G' !! n
  = match node_data G !! n with
    | Some d => Some d
    | None =>
        match r with
        | RFalse => None
        | REdge e => if bool_decide (n ∈ Edge_iter e) then Some ∅ else None
        end
    end.
Proof.
  unfold add_edge. destruct (add_edge_resolve nbunch kwds h) as [[e kw] h1].
  destruct (edge_data G !! Edge_hash_key e) as [[kd d]|].
  - intros ?; simplify_eq. by destruct (node_data G' !! n).
  - destruct (for_each _ _ _) as [[[]|ex] G2] eqn:Hloop; [|done].
    intros ?; simplify_eq. by rewrite (add_edge_loop_node_data _ _ _ _ n Hloop).
Qed.

Lemma copy_edge_loop l st st' :
  NoDup l.*1 →
  dom (node_data st.1) = dom (node_incidence st.1) →
  (∀ k, k ∈ l.*1 → edge_data st.1 !! k = None) →
  (∀ k n, k ∈ l.*1 → n ∈ members k → n ∈ dom (node_data st.1)) →
  for_each copy_edge l st = (Returned (), st') →
  node_data st'.1 = node_data st.1
  ∧ dom (node_data st'.1) = dom (node_incidence st'.1)
  ∧ edge_data st'.1
    = ((λ p : positive * positive, (p.1, p.1)) <$> list_to_map l)
      ∪ edge_data st.1
  ∧ ∀ n k, incident st'.1 n k ↔
           incident st.1 n k ∨ (k ∈ l.*1 ∧ n ∈ members k).
Proof.
  revert st. induction l as [|[k [kd v]] l IH];
    intros [G0 h0] Hnd Hd Hnew Hmem Hrun; cbn [for_each] in Hrun.
  - simplify_eq. simpl. rewrite ?list_to_map_nil, fmap_empty.
    rewrite (left_id_L ∅ (∪)). split; [done|]. split; [done|].
    split; [done|]. intros n x. split; [by left|].
    intros [?|[Hx _]]; [done|]. by apply elem_of_nil in Hx.
  - rewrite fmap_cons in Hnd, Hnew, Hmem.
    apply NoDup_cons in Hnd as [Hk Hnd].
    destruct (copy_edge _ _) as [[[]|ex] [G1 h1]] eqn:Hb; [|done].
    unfold copy_edge in Hb. cbn beta iota zeta in Hb.
    destruct (star_call_ok _ _); [|done].
    cbn [fst snd] in *.
    assert (Edge_hash_key (mkEdge k.1 k.2 kd) = k) as Hkey
      by (by destruct k).
    destruct (add_edge (Obj (mkEdge k.1 k.2 kd)) _ G0 h0)
      as [[[r|ex] G1'] h1'] eqn:Hadd; [|done].
    simplify_eq.
    destruct (add_edge_spec (Obj (mkEdge k.1 k.2 kd)) (heap_items v h0)
                G0 h0 Hd) as (e' & kw & h1' & Hres & Hcase).
    cbn [add_edge_resolve] in Hres. simplify_eq. rewrite Hkey in Hcase.
    destruct Hcase
      as [(? & ? & Hex & _)|(_ & G1' & Hrun1 & He & Hd1 & Hn1 & Hi1)].
    { rewrite (Hnew k) in Hex; [done|by left]. }
    rewrite Hadd in Hrun1. simplify_eq.
    assert (node_data G1' = node_data G0) as Hnd1.
    { apply map_eq. intros n.
      rewrite (add_edge_node_data _ _ _ _ _ _ _ n Hadd).
      destruct (node_data G0 !! n) eqn:Hn; [done|].
      rewrite bool_decide_eq_false_2; [done|]. intros Hin.
      apply (Hmem k n) in Hin; [|by left].
      by apply not_elem_of_dom in Hn. }
    apply IH in Hrun as (H1 & H2 & H3 & H4); [|done|done| |];
      cbn [fst snd] in *.
    + split; [congruence|]. split; [done|]. split.
      * rewrite H3, He, ?list_to_map_cons, fmap_insert.
        rewrite <- insert_union_l, <- insert_union_r; [done|].
        rewrite lookup_fmap.
        by rewrite (not_elem_of_list_to_map_1 (M:=gmap _) l k Hk).
      * intros n x. rewrite H4, Hi1, fmap_cons, elem_of_cons. cbn [fst].
        rewrite Edge_iter_members, Hkey. split.
        -- intros [[?|[? ->]]|[? ?]]; [by left|right|right].
           ++ split; [by left|done].
           ++ split; [by right|done].
        -- intros [?|[[->|?] ?]]; [by left; left|left; right|by right].
           done.
    + intros k1 Hk1. rewrite He, lookup_insert_ne; [|by intros ->].
      apply Hnew. by right.
    + intros k1 n Hk1 Hn. rewrite Hnd1. apply (Hmem k1); [by right|done].
Qed.

(** X16.  The graph [copy] returns for a graph that satisfies the
    invariants: the same nodes with the same attributes, the same edge
    identities with the same members incident to the same nodes, and the
    invariants hold for it.  Each edge is registered in the copy with the
    [data] object of the original's edge, both as the key's [data] and as
    the attribute mapping: the copy shares that object with the original. *)
Theorem copy_structure G h H h' :
  wf G → copy G h = (Returned H, h') →
  node_data H = node_data G
  ∧ edge_data H = (λ p : positive * positive, (p.1, p.1)) <$> edge_data G
  ∧ (∀ n k, incident H n k ↔ incident G n k)
  ∧ wf H.
Proof.
  intros HG Hrun. unfold copy in Hrun.
  destruct (for_each copy_node _ _) as [[[]|ex] G1] eqn:Hl1; [|done].
  destruct (for_each copy_edge _ _) as [[[]|ex] [G2 h2]] eqn:Hl2; [|done].
  simplify_eq.
  apply copy_node_loop in Hl1 as (Hn1 & Hi1 & He1);
    [|apply NoDup_fst_map_to_list|done].
  rewrite list_to_map_to_list in Hn1, Hi1.
  unfold HyperGraph_init in *; simpl in *.
  rewrite (right_id_L ∅ (∪)) in Hn1. rewrite (right_id_L ∅ (∪)) in Hi1.
  apply copy_edge_loop in Hl2 as (Hn2 & Hd2 & He2 & Hi2); simpl in *.
  - rewrite list_to_map_to_list, He1, (right_id_L ∅ (∪)) in He2.
    assert (∀ n k, incident H n k ↔ incident G n k) as Hinc.
    { intros n k. rewrite Hi2. split.
      - intros [(s & Hs & [l Hl])|[Hk Hm]].
        + rewrite Hi1, lookup_fmap in Hs.
          by destruct (node_data G !! n); simpl in Hs; simplify_eq;
            try rewrite lookup_empty in Hl.
        + apply (edges_incident G HG); [|done].
          apply list_elem_of_fmap in Hk as ([k' p] & -> & Hp).
          apply elem_of_map_to_list in Hp. by eauto.
      - intros Hi. right.
        destruct (incidence_sound G HG n k Hi) as [[p Hp] Hm]. split; [|done].
        apply list_elem_of_fmap. exists (k, p). split; [done|].
        by apply elem_of_map_to_list. }
    split; [congruence|]. split; [done|]. split; [done|].
    split; [done| |].
    + intros k n Hk Hm. apply Hinc. apply (edges_incident G HG); [|done].
      rewrite He2, lookup_fmap in Hk. by apply fmap_is_Some in Hk.
    + intros n k [Hk Hm]%Hinc%(incidence_sound G HG). split; [|done].
      rewrite He2, lookup_fmap. by apply fmap_is_Some.
  - apply NoDup_fst_map_to_list.
  - by rewrite Hn1, Hi1, dom_fmap_L.
  - intros k _. by rewrite He1.
  - intros k n Hk Hm. rewrite Hn1, (keys_agree G HG).
    apply list_elem_of_fmap in Hk as ([k' p] & -> & Hp).
    apply elem_of_map_to_list in Hp.
    destruct (edges_incident G HG k' n) as (s & Hs & _); [by eauto|done|].
    by apply elem_of_dom_2 in Hs.
Qed.

Lemma copy_structure_witness :
  let st := (session merge_script).2 in
  let H := match (copy st.1 st.2).1 with
           | Returned H => H
           | Raised _ => HyperGraph_init
           end in
  node_data H = node_data st.1
  ∧ edge_data H = (λ p : positive * positive, (p.1, p.1)) <$> edge_data st.1
  ∧ (∀ n k, incident H n k ↔ incident st.1 n k)
  ∧ wf H.
Proof.
  apply (copy_structure (session merge_script).2.1 (session merge_script).2.2
           _ (copy (session merge_script).2.1 (session merge_script).2.2).2).
  - apply reachable_wf, session_reachable. by vm_compute.
  - apply (bool_decide_unpack _). by vm_compute.
Defined.

(** ** When [remove_node] returns *)

Lemma incidence_add_loop_returns (e : Edge) l G :
  (∀ n, n ∈ l → is_Some (node_incidence G !! n)) →
  ∃ G', for_each (incidence_add e) l G = (Returned (), G').
Proof.
  revert G. induction l as [|x l IH]; intros G Hdom; simpl; [by eauto|].
  destruct (Hdom x) as [s Hs]; [by left|].
  destruct (incidence_add e x G) as [[[]|ex] G1] eqn:Hb.
  - apply incidence_add_spec in Hb as (_ & _ & Hd & _).
    apply IH. intros n Hn. apply elem_of_dom. rewrite Hd.
    apply elem_of_dom, Hdom. by right.
  - unfold incidence_add in Hb. by rewrite Hs in Hb.
Qed.

Lemma remove_node_body_returns node e G (h : gmap positive EdgeData) :
  is_Some (edge_data G !! Edge_hash_key e) →
  star_call_ok ["self"; "nbunch"; "edgekey"] (heap_items (data e) h) = true →
  (∀ n, n ∈ members (Edge_hash_key e) → incident G n (Edge_hash_key e)) →
  NoDup (members (reduced node (Edge_hash_key e))) →
  ∃ st', remove_node_body node e (G, h) = (Returned (), st').
Proof.
  intros [p Hp] Hok Hinc Hnd. unfold remove_node_body.
  rewrite Hp, Hok. unfold Edge_init, heap_alloc.
  set (newe := mkEdge _ _ _).
  assert (Edge_iter newe = members (reduced node (Edge_hash_key e))) as Hm
    by done.
  assert (∀ n, n ∈ Edge_iter newe → incident G n (Edge_hash_key e)) as Hin.
  { intros n Hn. rewrite Hm in Hn.
    apply elem_of_members_reduced in Hn as [Hn _]. by apply Hinc. }
  assert (∀ G3,
    (∀ n, n ∈ Edge_iter newe → incident G3 n (Edge_hash_key e)) →
    ∃ G4, for_each (incidence_remove (Edge_hash_key e)) (Edge_iter newe) G3
          = (Returned (), G4)) as Hrem.
  { intros G3 H3. apply incidence_remove_loop_returns; [by rewrite Hm|done]. }
  destruct (decide (1 < Edge_len newe)) as [Hins|Hins].
  - edestruct (incidence_add_loop_returns newe (Edge_iter newe)) as [G3 Hadd];
      [|rewrite Hadd].
    + intros n Hn; simpl. destruct (Hin n Hn) as (s & Hs & _). by eauto.
    + apply incidence_add_loop_spec in Hadd as (_ & _ & _ & Hi3).
      destruct (Hrem G3) as [G4 ->]; [|by eauto].
      intros n Hn. apply Hi3. left.
      destruct (Hin n Hn) as (s & Hs & Hk). by exists s.
  - destruct (Hrem (mkHyperGraph (node_data G) (node_incidence G)
                      (delete (Edge_hash_key e) (edge_data G))))
      as [G4 ->]; [|by eauto].
    intros n Hn. destruct (Hin n Hn) as (s & Hs & Hk). by exists s.
Qed.

Lemma remove_node_body_heap node e G (h : gmap positive EdgeData) o G' h' l :
  remove_node_body node e (G, h) = (o, (G', h')) →
  is_Some (h !! l) → h' !! l = h !! l.
Proof.
  unfold remove_node_body. intros Hrun [d Hl].
  destruct (edge_data G !! Edge_hash_key e); [|by simplify_eq].
  destruct (star_call_ok _ _); [|by simplify_eq].
  unfold Edge_init, heap_alloc in Hrun.
  assert (fresh (dom h) ≠ l) as Hne.
  { intros <-. apply (is_fresh (dom h)). by apply elem_of_dom_2 in Hl. }
  destruct (decide _) as [Hins|Hins] in Hrun.
  - destruct (for_each (incidence_add _) _ _) as [[[]|ex] G3].
    + destruct (for_each (incidence_remove _) _ _) as [o' G4].
      simplify_eq. by rewrite lookup_insert_ne.
    + simplify_eq. by rewrite lookup_insert_ne.
  - destruct (for_each (incidence_remove _) _ _) as [o' G4].
    simplify_eq. by rewrite lookup_insert_ne.
Qed.

Lemma remove_node_loop_returns node todo st :
  NoDup (Edge_hash_key <$> todo) →
  Forall (λ e,
    is_Some (edge_data st.1 !! Edge_hash_key e)
    ∧ is_Some (st.2 !! data e)
    ∧ star_call_ok ["self"; "nbunch"; "edgekey"] (heap_items (data e) st.2)
      = true
    ∧ (∀ n, n ∈ members (Edge_hash_key e) →
            incident st.1 n (Edge_hash_key e))
    ∧ NoDup (members (reduced node (Edge_hash_key e)))) todo →
  ∃ st', for_each (remove_node_body node) todo st = (Returned (), st').
Proof.
  revert st. induction todo as [|e todo IH]; intros [G h] Hnd Hall;
    cbn [for_each]; [by eauto|].
  rewrite fmap_cons in Hnd. apply NoDup_cons in Hnd as [Hk Hnd].
  apply Forall_cons in Hall as [(Hreg & _ & Hok & Hinc & Hred) Hall].
  cbn [fst snd] in *.
  destruct (remove_node_body_returns node e G h Hreg Hok Hinc Hred)
    as [[G1 h1] Hb].
  rewrite Hb. apply IH; [done|].
  pose proof (remove_node_body_spec _ _ _ _ _ _ Hb) as (_ & _ & _ & He & Hi).
  rewrite Forall_forall in Hall. apply Forall_forall.
  intros e' He'. destruct (Hall e' He') as (Hreg' & Hh' & Hok' & Hinc' & Hred').
  assert (Edge_hash_key e' ≠ Edge_hash_key e) as Hne.
  { intros Heq. apply Hk. rewrite <- Heq. by apply list_elem_of_fmap_2. }
  pose proof (remove_node_body_heap _ _ _ _ _ _ _ (data e') Hb Hh') as Hheap.
  cbn [fst snd]. split; [apply He; by left|]. split; [by rewrite Hheap|].
  split; [unfold heap_items in *; by rewrite Hheap|]. split; [|done].
  intros n Hn. apply Hi. split; [left; by apply Hinc'|]. by intros [_ ?].
Qed.

(** X17.  When [remove_node] returns.  On a graph that satisfies the
    invariants, for a node present and a heap in which, for every edge
    incident to the node, the members left after the node is taken out are
    listed once each, the attribute object is allocated and none of its
    attributes is named [self], [nbunch] or [edgekey]: [remove_node]
    returns. *)
Theorem remove_node_returns node G h s :
  wf G → node_incidence G !! node = Some s →
  Forall (λ e,
    NoDup (members (reduced node (Edge_hash_key e)))
    ∧ is_Some (h !! data e)
    ∧ star_call_ok ["self"; "nbunch"; "edgekey"] (heap_items (data e) h)
      = true) (set_elements s) →
  ∃ G' h', remove_node node G h = (Returned (), (G', h')).
Proof.
  intros HG Hs Hall.
  assert (is_Some (node_data G !! node)) as [d Hd].
  { apply elem_of_dom. rewrite (keys_agree G HG). by apply elem_of_dom_2 in Hs. }
  unfold remove_node. rewrite Hd; simpl. rewrite Hs.
  edestruct (remove_node_loop_returns node (set_elements s)) as [[G2 h2] ->];
    [| |by eauto].
  - rewrite set_elements_keys. apply NoDup_fst_map_to_list.
  - rewrite Forall_forall in Hall. apply Forall_forall. intros e He; simpl.
    destruct (Hall e He) as (Hred & Hh & Hok).
    assert (incident G node (Edge_hash_key e)) as Hi.
    { exists s. split; [done|]. apply elem_of_set_elements in He. by eauto. }
    destruct (incidence_sound G HG _ _ Hi) as [Hreg _].
    split; [done|]. split; [done|]. split; [done|]. split; [|done].
    intros n Hn. destruct (edges_incident G HG _ n Hreg Hn) as (s' & ? & ?).
    by exists s'.
Qed.

Lemma remove_node_returns_witness :
  ∃ G' h', remove_node 1 (session merge_script).2.1 (session merge_script).2.2
           = (Returned (), (G', h')).
Proof.
  apply (remove_node_returns 1 (session merge_script).2.1
           (session merge_script).2.2
           (default ∅ (node_incidence (session merge_script).2.1 !! 1%Z))).
  - apply reachable_wf, session_reachable. by vm_compute.
  - apply (bool_decide_unpack _). by vm_compute.
  - apply (bool_decide_unpack _). by vm_compute.
Defined.
